(** * mcube: spinlocks, the O(1) run-queue and the kernel's lists

    A shallow embedding of [arch/x86/lib/spinlock.c], of
    [kernel/queue/o1.c], of the circular lists of
    [include/mcube/list.h], of the alignment macros and [ceil_div] of
    [include/mcube/kernel.h] and of the checksums of the MP tables and
    of the E820h map, with the properties that follow from the code.

    The code is embedded in a state monad that logs what it does.  For
    the run-queue the state is a field-split memory: one function per
    struct field ([next], [prev], [priority]), updated pointwise.  Every
    statement of the C source is one monadic action, in source order.
    The list functions run in a monad that can end in [panic], since
    they assert.

    Layout: the embeddings (spinlock, alignment and division,
    checksums, run-queue and lists) with the notions the properties are
    stated with, then the properties: run-queue,
    spinlock, lists, alignment and division, checksums. *)

From Stdlib Require Import ZArith List Lia Bool Arith PeanoNat Sorted.
Import ListNotations.

Set Implicit Arguments.

(* ================================================================== *)
(** ** Spinlocks ([arch/x86/lib/spinlock.c]) *)
(* ================================================================== *)

Module Spinlock.

Local Open Scope Z_scope.

(** [include/.../spinlock.h]: "mcube's spinlock is reversed". *)
Definition _SPIN_LOCKED : Z := 1.
Definition _SPIN_UNLOCKED : Z := 0.

(** [union x86_rflags] ([include/x86/x86.h]) as its [raw] 64-bit word;
    [irqs_enabled] is bit 9 of the bit-field. *)
Definition x86_rflags := Z.
Definition IF_BIT : Z := 9.
Definition irqs_enabled (f : x86_rflags) : bool := Z.testbit f IF_BIT.

(** The part of the machine a spinlock call touches: the two fields of
    the [struct lock_spin] it is handed and the calling CPU's [%rflags]. *)
Record machine : Type := Machine {
  lock_val : Z;                 (* lock->val    *)
  lock_rflags : x86_rflags;     (* lock->rflags *)
  cpu_rflags : x86_rflags       (* %rflags      *)
}.

(** Program points: one label per primitive effect. *)
Inductive effect : Type :=
| LoadLockRflags                (* rflags = lock->rflags        *)
| Barrier                       (* barrier()                    *)
| StoreLockVal (v : Z)          (* lock->val = v                *)
| StoreLockRflags (f : x86_rflags) (* lock->rflags = f          *)
| TestAndSet                    (* atomic_bit_test_and_set()    *)
| IrqDisableSave                (* local_irq_disable_save()     *)
| IrqRestore (f : x86_rflags).  (* local_irq_restore(f)         *)

(** A run is logged as the list of effects performed, each paired with
    the machine state in which it was issued. *)
Definition trace := list (effect * machine).

Definition M (A : Type) : Type := machine -> A * machine * trace.

Definition ret {A} (a : A) : M A := fun m => (a, m, []).

Definition bind {A B} (c : M A) (k : A -> M B) : M B :=
  fun m =>
    let '(a, m1, t1) := c m in
    let '(b, m2, t2) := k a m1 in
    (b, m2, t1 ++ t2).

Notation "x <- c ;; k" := (bind c (fun x => k))
  (at level 61, c at next level, right associativity).
Notation "c ;;; k" := (bind c (fun _ => k))
  (at level 61, right associativity).

(** Field accesses of [struct lock_spin]. *)
Definition load_lock_rflags : M x86_rflags :=
  fun m => (lock_rflags m, m, [(LoadLockRflags, m)]).

Definition store_lock_val (v : Z) : M unit :=
  fun m => (tt, Machine v (lock_rflags m) (cpu_rflags m),
            [(StoreLockVal v, m)]).

Definition store_lock_rflags (f : x86_rflags) : M unit :=
  fun m => (tt, Machine (lock_val m) f (cpu_rflags m),
            [(StoreLockRflags f, m)]).

(** [barrier()]: a compiler fence, no effect on the machine state. *)
Definition barrier : M unit := fun m => (tt, m, [(Barrier, m)]).

(** Modelled from the spec: [atomic_bit_test_and_set] is not among the
    sources.  Section 4.1 calls it "an atomic test-and-set" on the lock
    word: it sets the lock bit (bit 0, so that a free word 0 becomes
    [_SPIN_LOCKED]) and returns the bit's previous value. *)
Definition atomic_bit_test_and_set : M Z :=
  fun m =>
    (if Z.testbit (lock_val m) 0 then 1 else 0,
     Machine (Z.lor (lock_val m) 1) (lock_rflags m) (cpu_rflags m),
     [(TestAndSet, m)]).

(** Modelled from the spec: [local_irq_disable_save] is not among the
    sources.  Section 4.1: "disables local interrupts, saves prior
    interrupt-enable state"; it returns the flags as they were. *)
Definition local_irq_disable_save : M x86_rflags :=
  fun m =>
    (cpu_rflags m,
     Machine (lock_val m) (lock_rflags m) (Z.clearbit (cpu_rflags m) IF_BIT),
     [(IrqDisableSave, m)]).

(** Modelled from the spec: [local_irq_restore] is not among the
    sources.  Section 4.1: "restores the previously saved
    interrupt-enable state"; with [set_rflags] of [x86.h] that is
    writing the saved word back to [%rflags]. *)
Definition local_irq_restore (f : x86_rflags) : M unit :=
  fun m => (tt, Machine (lock_val m) (lock_rflags m) f, [(IrqRestore f, m)]).

(** [void spin_init(struct lock_spin *lock)] *)
Definition spin_init : M unit :=
  store_lock_val _SPIN_UNLOCKED.

(** [bool spin_trylock(struct lock_spin *lock)] *)
Definition spin_trylock : M bool :=
  rflags <- local_irq_disable_save ;;
  old <- atomic_bit_test_and_set ;;
  if old =? _SPIN_LOCKED then
    local_irq_restore rflags ;;;
    ret false
  else
    store_lock_rflags rflags ;;;
    ret true.

(** [void spin_unlock(struct lock_spin *lock)] *)
Definition spin_unlock : M unit :=
  rflags <- load_lock_rflags ;;
  barrier ;;;
  store_lock_val _SPIN_UNLOCKED ;;;
  local_irq_restore rflags.

Definition result {A} (r : A * machine * trace) : A := fst (fst r).
Definition final {A} (r : A * machine * trace) : machine := snd (fst r).
Definition log {A} (r : A * machine * trace) : trace := snd r.

Definition is_irq_restore (e : effect) : bool :=
  match e with IrqRestore _ => true | _ => false end.

(** [lock->val], as the busy-wait loop of [spin_lock] reads it. *)
Definition load_lock_val : M Z := fun m => (lock_val m, m, []).

(** [cpu_pause()] ([kernel.h]): the [pause] instruction with a compiler
    fence; no effect on the machine state. *)
Definition cpu_pause : M unit := fun m => (tt, m, [(Barrier, m)]).

(** Modelled from the spec: [local_irq_disable] is not among the
    sources.  Section 4.1: while spinning, [lock] "disables them again
    before retrying the atomic operation"; it clears the interrupt
    flag. *)
Definition local_irq_disable : M unit :=
  fun m =>
    (tt, Machine (lock_val m) (lock_rflags m)
                 (Z.clearbit (cpu_rflags m) IF_BIT), []).

(** The inner loop of [spin_lock],
    [while (lock->val == _SPIN_LOCKED) cpu_pause();], run for at most
    [fuel] iterations; the result tells whether the loop was left. *)
Fixpoint spin_wait (fuel : nat) : M bool :=
  match fuel with
  | O => ret false
  | S k =>
      v <- load_lock_val ;;
      if v =? _SPIN_LOCKED then cpu_pause ;;; spin_wait k else ret true
  end.

(** The outer loop of [spin_lock],
    [while (atomic_bit_test_and_set(&lock->val) == _SPIN_LOCKED) { ... }],
    run for at most [fuel] iterations; the result tells whether the
    lock was acquired. *)
Fixpoint spin_acquire (fuel : nat) (rflags : x86_rflags) : M bool :=
  match fuel with
  | O => ret false
  | S k =>
      old <- atomic_bit_test_and_set ;;
      if old =? _SPIN_LOCKED then
        local_irq_restore rflags ;;;
        left <- spin_wait k ;;
        if left then local_irq_disable ;;; spin_acquire k rflags
        else ret false
      else ret true
  end.

(** [void spin_lock(struct lock_spin *lock)], on a machine where nothing
    else writes the lock while it runs.  The result is [true] when the
    call returns within [fuel] iterations of its loops. *)
Definition spin_lock (fuel : nat) : M bool :=
  rflags <- local_irq_disable_save ;;
  acquired <- spin_acquire fuel rflags ;;
  if acquired then store_lock_rflags rflags ;;; ret true
  else ret false.

End Spinlock.

(* ================================================================== *)
(** ** Alignment and ceiling division ([include/mcube/kernel.h]) *)
(* ================================================================== *)

Module Kernel.

Local Open Scope Z_scope.

(** Conversion to [uint8_t], [uint32_t] and [uint64_t]. *)
Definition uint8 (z : Z) : Z := z mod 2 ^ 8.
Definition uint32 (z : Z) : Z := z mod 2 ^ 32.
Definition uint64 (z : Z) : Z := z mod 2 ^ 64.

(** [#define round_down(x, n) (x & ~(typeof(x))(n - 1))], for [x] a
    [uint64_t]. *)
Definition round_down (x n : Z) : Z :=
  Z.land x (uint64 (Z.lnot (uint64 (n - 1)))).

(** [#define round_up(x, n) (((x - 1) | (typeof(x))(n - 1)) + 1)], for
    [x] a [uint64_t]: the subtraction and the addition wrap around. *)
Definition round_up (x n : Z) : Z :=
  uint64 (Z.lor (uint64 (x - 1)) (uint64 (n - 1)) + 1).

(** [#define __mask(x, n) ((typeof(x))((n) - 1))] *)
Definition __mask (x n : Z) : Z := uint64 (n - 1).

(** [#define is_aligned(x, n) (((x) & __mask(x, n)) == 0)] *)
Definition is_aligned (x n : Z) : bool := Z.land x (__mask x n) =? 0.

(** [static inline uint64_t ceil_div(uint64_t a, uint64_t b)]; [None]
    is the division by zero, which the function does not guard. *)
Definition ceil_div (a b : Z) : option Z :=
  if a =? 0 then Some a
  else if b =? 0 then None
  else Some (uint64 (uint64 (a - 1) / b + 1)).

End Kernel.

(* ================================================================== *)
(** ** Checksums ([arch/x86_64/mptables.c], [arch/x86/mm/e820.c]) *)
(* ================================================================== *)

Module Checksum.

Import Kernel.

Local Open Scope Z_scope.

(** Memory by byte address; a load through a [uint8_t *] gives a
    byte. *)
Definition memory : Type := Z -> Z.

Definition load8 (mem : memory) (a : Z) : Z := uint8 (mem a).

(** The loop [while (len--) sum += *buf++;] with [uint8_t sum]. *)
Fixpoint mpf_checksum_loop (mem : memory) (len : nat) (buf sum : Z) : Z :=
  match len with
  | O => sum
  | S len' => mpf_checksum_loop mem len' (buf + 1) (uint8 (sum + load8 mem buf))
  end.

(** [static uint8_t mpf_checksum(void *mp, uint32_t len)] *)
Definition mpf_checksum (mem : memory) (mp : Z) (len : nat) : Z :=
  mpf_checksum_loop mem len mp 0.

(** The loop [while (len--) sum += *p++;] with [uint32_t sum]. *)
Fixpoint e820_checksum_loop (mem : memory) (len : nat) (p sum : Z) : Z :=
  match len with
  | O => sum
  | S len' => e820_checksum_loop mem len' (p + 1) (uint32 (sum + load8 mem p))
  end.

(** [static uint32_t e820_checksum(void *base, int len)], for a [len]
    that is not negative. *)
Definition e820_checksum (mem : memory) (base : Z) (len : nat) : Z :=
  e820_checksum_loop mem len base 0.

(** The sum of the [len] bytes from address [a] on, as a number. *)
Fixpoint byte_sum (mem : memory) (len : nat) (a : Z) : Z :=
  match len with
  | O => 0
  | S len' => load8 mem a + byte_sum mem len' (a + 1)
  end.

End Checksum.

(* ================================================================== *)
(** ** The O(1) run-queue ([kernel/queue/o1.c]) *)
(* ================================================================== *)

Module RunQueue.

(** *** Memory *)

(** Addresses of [struct thread_struct] objects.  The sentinels of the
    run-queues live inside [run_tq[]]: [Head c i] is [&run_tq[c].array[i]]
    (for [i] beyond the array, the memory that follows it).  Every other
    thread descriptor is [Thread id]. *)
Inductive ptr : Type :=
| NULL
| Head (rq : nat) (i : nat)
| Thread (id : nat).

Definition ptr_eqb (a b : ptr) : bool :=
  match a, b with
  | NULL, NULL => true
  | Head r i, Head r' i' => Nat.eqb r r' && Nat.eqb i i'
  | Thread n, Thread n' => Nat.eqb n n'
  | _, _ => false
  end.

Definition is_thread (a : ptr) : bool :=
  match a with Thread _ => true | _ => false end.

(** Pointwise update of a field. *)
Definition upd {A} (f : ptr -> A) (a : ptr) (v : A) : ptr -> A :=
  fun x => if ptr_eqb x a then v else f x.

Definition updn {A} (f : nat -> A) (n : nat) (v : A) : nat -> A :=
  fun k => if Nat.eqb k n then v else f k.

(** The kernel state the run-queue code reads and writes: the [next],
    [prev] and [priority] fields of every thread descriptor, the bitmap
    of every run-queue and the per-CPU [bindex[]]. *)
Record state : Type := State {
  next : ptr -> ptr;
  prev : ptr -> ptr;
  priority : ptr -> nat;
  bitmap : nat -> Z;
  bindex : nat -> nat
}.

(** What an operation indexes: an element of [rq->array] or a bit of
    [rq->bitmap]. *)
Inductive access : Type :=
| ArrayAt (rq i : nat)
| BitAt (rq n : nat).

Definition access_index (a : access) : nat :=
  match a with ArrayAt _ i => i | BitAt _ n => n end.

Definition M (A : Type) : Type := state -> A * state * list access.

Definition ret {A} (a : A) : M A := fun s => (a, s, []).

Definition bind {A B} (c : M A) (k : A -> M B) : M B :=
  fun s =>
    let '(a, s1, l1) := c s in
    let '(b, s2, l2) := k a s1 in
    (b, s2, l1 ++ l2).

Notation "x <- c ;; k" := (bind c (fun x => k))
  (at level 61, c at next level, right associativity).
Notation "c ;;; k" := (bind c (fun _ => k))
  (at level 61, right associativity).

Definition result {A} (r : A * state * list access) : A := fst (fst r).
Definition final {A} (r : A * state * list access) : state := snd (fst r).
Definition accesses {A} (r : A * state * list access) : list access := snd r.

(** Loads and stores of the fields. *)
Definition get_next (a : ptr) : M ptr := fun s => (next s a, s, []).
Definition get_prev (a : ptr) : M ptr := fun s => (prev s a, s, []).
Definition get_priority (a : ptr) : M nat := fun s => (priority s a, s, []).

Definition set_next (a v : ptr) : M unit :=
  fun s => (tt, State (upd (next s) a v) (prev s) (priority s)
                      (bitmap s) (bindex s), []).

Definition set_prev (a v : ptr) : M unit :=
  fun s => (tt, State (next s) (upd (prev s) a v) (priority s)
                      (bitmap s) (bindex s), []).

(** [&rq->array[i]] *)
Definition array_at (rq i : nat) : M ptr :=
  fun s => (Head rq i, s, [ArrayAt rq i]).

(** [&rq->array[th->priority]] *)
Definition slot (rq : nat) (th : ptr) : M ptr :=
  p <- get_priority th ;; array_at rq p.

Definition get_bindex (cpu : nat) : M nat := fun s => (bindex s cpu, s, []).

Definition set_bindex (cpu v : nat) : M unit :=
  fun s => (tt, State (next s) (prev s) (priority s) (bitmap s)
                      (updn (bindex s) cpu v), []).

Definition get_bitmap (rq : nat) : M Z := fun s => (bitmap s rq, s, []).

(** Modelled from the spec: [set_bit] and [clear_bit] are not among the
    sources.  Section 3: the bitmap is "a bit-vector"; enqueue "set[s] the
    corresponding bitmap bit", dequeue "clear[s] the corresponding bitmap
    bit".  The bit-vector is a [Z]. *)
Definition set_bit (rq n : nat) : M unit :=
  fun s => (tt, State (next s) (prev s) (priority s)
                      (updn (bitmap s) rq (Z.setbit (bitmap s rq) (Z.of_nat n)))
                      (bindex s), [BitAt rq n]).

Definition clear_bit (rq n : nat) : M unit :=
  fun s => (tt, State (next s) (prev s) (priority s)
                      (updn (bitmap s) rq (Z.clearbit (bitmap s rq) (Z.of_nat n)))
                      (bindex s), [BitAt rq n]).

Definition ptr_eq_dec (a b : ptr) : {a = b} + {a <> b}.
Proof. decide equality; apply Nat.eq_dec. Defined.

(** The threads queued at each priority, first to last. *)
Definition contents := nat -> list ptr.

(** The empty run-queue. *)
Definition no_threads : contents := fun _ => [].

(** How a call ends.  [panic] of [kernel.h] does not return. *)
Inductive outcome : Type :=
| Returned (s : state)
| Panicked.

(** No statement of [o1.c] is an [assert] or a call of [panic], and the
    actions of [M] have no failing case: a call runs to its end. *)
Definition call {A} (c : M A) (s : state) : outcome :=
  Returned (final (c s)).

(** *** A four-priority configuration *)

(** The configuration of the scenario of section 8 of the
    specification: [NR_PRIORITIES = 4], one bitmap word, run-queue 0.
    [T2] has priority 0, every other thread priority 2. *)

Definition NRP : nat := 4.
Definition NRB : nat := 1.

Definition T1 : ptr := Thread 1.
Definition T2 : ptr := Thread 2.
Definition T3 : ptr := Thread 3.
Definition T4 : ptr := Thread 4.

Definition prio (x : ptr) : nat :=
  match x with
  | Thread 2 => 0
  | _ => 2
  end.

(** Every descriptor linked to itself, every bitmap zero. *)
Definition boot : state :=
  State (fun x => x) (fun x => x) prio (fun _ => 0%Z) (fun _ => 0).

(** A state whose bitmaps are not zero. *)
Definition stale : state :=
  State (fun x => x) (fun x => x) prio (fun _ => 1%Z) (fun _ => 0).

(* ------------------------------------------------------------------ *)
(** *** Type-generic doubly-linked lists ([include/mcube/list.h]) *)
(* ------------------------------------------------------------------ *)

Module ListNode.

(** The [next] and [prev] fields of every [struct list_node], by
    address. *)
Record heap : Type := Heap {
  node_next : ptr -> ptr;
  node_prev : ptr -> ptr
}.

(** A computation over the nodes that may end in [panic]: [None] is a
    failed [assert] ([kernel.h]: [assert] calls [panic], which does not
    return). *)
Definition L (A : Type) : Type := heap -> option (A * heap).

Definition lret {A} (a : A) : L A := fun h => Some (a, h).

Definition lbind {A B} (c : L A) (k : A -> L B) : L B :=
  fun h =>
    match c h with
    | Some (a, h1) => k a h1
    | None => None
    end.

Declare Scope list_h_scope.
Delimit Scope list_h_scope with list_h.

Notation "x <- c ;; k" := (lbind c (fun x => k))
  (at level 61, c at next level, right associativity) : list_h_scope.
Notation "c ;;; k" := (lbind c (fun _ => k))
  (at level 61, right associativity) : list_h_scope.

Local Open Scope list_h_scope.

(** [assert(condition)] *)
Definition assert (condition : bool) : L unit :=
  fun h => if condition then Some (tt, h) else None.

Definition get_node_next (a : ptr) : L ptr := fun h => Some (node_next h a, h).
Definition get_node_prev (a : ptr) : L ptr := fun h => Some (node_prev h a, h).

Definition set_node_next (a v : ptr) : L unit :=
  fun h => Some (tt, Heap (upd (node_next h) a v) (node_prev h)).

Definition set_node_prev (a v : ptr) : L unit :=
  fun h => Some (tt, Heap (node_next h) (upd (node_prev h) a v)).

(** [static inline void list_init(struct list_node *node)] *)
Definition list_init (node : ptr) : L unit :=
  set_node_next node node ;;;
  set_node_prev node node.

(** [static inline bool list_empty(const struct list_node *node)] *)
Definition list_empty (node : ptr) : L bool :=
  n <- get_node_next node ;;
  if ptr_eqb n node then
    (p <- get_node_prev node ;; assert (ptr_eqb p node)) ;;;
    lret true
  else
    (p <- get_node_prev node ;; assert (negb (ptr_eqb p node))) ;;;
    lret false.

(** [static inline void list_add(struct list_node *node, struct list_node *new)] *)
Definition list_add (node new : ptr) : L unit :=
  (n <- get_node_next node ;; set_node_next new n) ;;;
  (n <- get_node_next new ;; set_node_prev n new) ;;;
  set_node_next node new ;;;
  set_node_prev new node.

(** [static inline void list_add_tail(struct list_node *node, struct list_node *new)] *)
Definition list_add_tail (node new : ptr) : L unit :=
  (p <- get_node_prev node ;; set_node_prev new p) ;;;
  (p <- get_node_prev new ;; set_node_next p new) ;;;
  set_node_prev node new ;;;
  set_node_next new node.

(** [static inline void list_del(struct list_node *node)] *)
Definition list_del (node : ptr) : L unit :=
  prevn <- get_node_prev node ;;
  nextn <- get_node_next node ;;
  assert (negb (ptr_eqb prevn NULL)) ;;;
  assert (negb (ptr_eqb nextn NULL)) ;;;
  (pn <- get_node_next prevn ;; assert (ptr_eqb pn node)) ;;;
  (np <- get_node_prev nextn ;; assert (ptr_eqb np node)) ;;;
  (n <- get_node_next node ;; set_node_next prevn n) ;;;
  (p <- get_node_prev node ;; set_node_prev nextn p) ;;;
  set_node_next node node ;;;
  set_node_prev node node.

(** The iteration of [list_for_each(node, struc, name)] with a body
    that leaves the list alone: the nodes the iterator takes, in order.
    [fuel] bounds the number of iterations; [None] when it runs out. *)
Fixpoint list_for_each (fuel : nat) (node cur : ptr) (h : heap)
  : option (list ptr) :=
  if ptr_eqb cur node then Some []
  else
    match fuel with
    | O => None
    | S k =>
        match list_for_each k node (node_next h cur) h with
        | Some visited => Some (cur :: visited)
        | None => None
        end
    end.

(** The iteration of [list_for_each_safe(node, struc, spare_struc, name)]
    with [list_del(&struc->name)] as its body: "popping-up list elements
    as you go".  [cur] is the iterator and [spare] the spare iterator;
    the result is the list of the nodes popped. *)
Fixpoint list_for_each_safe_del (fuel : nat) (node cur spare : ptr)
  : L (option (list ptr)) :=
  if ptr_eqb cur node then lret (Some [])
  else
    match fuel with
    | O => lret None
    | S k =>
        list_del cur ;;;
        spare' <- get_node_next spare ;;
        popped <- list_for_each_safe_del k node spare spare' ;;
        lret (option_map (cons cur) popped)
    end.

(** The iteration of [list_for_each(node, struc, name)] with
    [list_del(&struc->name)] as its body, which the header warns
    against: the next iterator is read from the node just deleted. *)
Fixpoint list_for_each_del (fuel : nat) (node cur : ptr)
  : L (option (list ptr)) :=
  if ptr_eqb cur node then lret (Some [])
  else
    match fuel with
    | O => lret None
    | S k =>
        list_del cur ;;;
        cur' <- get_node_next cur ;;
        popped <- list_for_each_del k node cur' ;;
        lret (option_map (cons cur) popped)
    end.

(** [list_for_each_safe] from its initialisation on. *)
Definition list_pop_all (fuel : nat) (node : ptr) : L (option (list ptr)) :=
  cur <- get_node_next node ;;
  spare <- get_node_next cur ;;
  list_for_each_safe_del fuel node cur spare.

(** The four assertions of [list_del]. *)
Definition list_del_checks (node : ptr) (h : heap) : bool :=
  negb (ptr_eqb (node_prev h node) NULL) &&
  negb (ptr_eqb (node_next h node) NULL) &&
  ptr_eqb (node_next h (node_prev h node)) node &&
  ptr_eqb (node_prev h (node_next h node)) node.

End ListNode.

Section O1.

(** [NR_PRIORITIES] and [NR_PRIORITY_BITMAPS] are configuration
    constants whose definitions are not among the sources. *)
Variable NR_PRIORITIES : nat.
Variable NR_PRIORITY_BITMAPS : nat.

(** Scan [n] bits upwards from bit [i]. *)
Fixpoint first_bit_from (b : Z) (i n : nat) : nat :=
  match n with
  | O => i
  | S k => if Z.testbit b (Z.of_nat i) then i else first_bit_from b (S i) k
  end.

(** Modelled from the spec: [find_first_bit] is not among the sources.
    Section 4.2: "find the lowest-numbered set bit in [bitmap]", a
    bit-vector of length [NR_PRIORITIES]; [pick_next_task] recognises "no
    bit is set" by the result [NR_PRIORITIES].  The second argument is
    the number of words holding the bits, which a [Z] does not need. *)
Definition find_first_bit (b : Z) (nwords : nat) : nat :=
  first_bit_from b 0 NR_PRIORITIES.

(** [void enqueue_rq_queue_head(struct runqueue *rq, struct thread_struct *th)] *)
Definition enqueue_rq_queue_head (rq : nat) (th : ptr) : M unit :=
  (p <- get_priority th ;; set_bit rq p) ;;;
  (h <- slot rq th ;; n <- get_next h ;; set_prev n th) ;;;
  (h <- slot rq th ;; n <- get_next h ;; set_next th n) ;;;
  (h <- slot rq th ;; set_prev th h) ;;;
  (h <- slot rq th ;; set_next h th).

(** [void enqueue_rq_queue(struct runqueue *rq, struct thread_struct *th)] *)
Definition enqueue_rq_queue (rq : nat) (th : ptr) : M unit :=
  (p <- get_priority th ;; set_bit rq p) ;;;
  (h <- slot rq th ;; t <- get_prev h ;; set_next t th) ;;;
  (h <- slot rq th ;; t <- get_prev h ;; set_prev th t) ;;;
  (h <- slot rq th ;; set_next th h) ;;;
  (h <- slot rq th ;; set_prev h th).

(** [void dequeue_rq_queue(struct runqueue *rq, struct thread_struct *th)] *)
Definition dequeue_rq_queue (rq : nat) (th : ptr) : M unit :=
  (h <- slot rq th ;; n <- get_next h ;;
   if ptr_eqb n th then
     h <- slot rq th ;; tn <- get_next th ;; set_next h tn
   else
     tp <- get_prev th ;; tn <- get_next th ;; set_next tp tn) ;;;
  (tn <- get_next th ;; tp <- get_prev th ;; set_prev tn tp) ;;;
  (h <- slot rq th ;; n <- get_next h ;; h' <- slot rq th ;;
   if ptr_eqb n h' then
     p <- get_priority th ;; clear_bit rq p
   else ret tt).

(** [struct thread_struct *pick_next_task(void)]; [cpu] is the value of
    [get_cpu_id()]. *)
Definition pick_next_task (cpu : nat) : M ptr :=
  (b <- get_bitmap cpu ;;
   set_bindex cpu (find_first_bit b NR_PRIORITY_BITMAPS)) ;;;
  i <- get_bindex cpu ;;
  if negb (Nat.eqb i NR_PRIORITIES) then
    i' <- get_bindex cpu ;; h <- array_at cpu i' ;; get_next h
  else ret NULL.

(** The loop of [init_rq]: [n] iterations starting at [i]. *)
Fixpoint init_rq_loop (cpu i n : nat) : M unit :=
  match n with
  | O => ret tt
  | S k =>
      (h <- array_at cpu i ;; h1 <- array_at cpu i ;; set_next h1 h ;;;
       h2 <- array_at cpu i ;; set_prev h2 h) ;;;
      init_rq_loop cpu (S i) k
  end.

(** [void init_rq(void)] *)
Definition init_rq (cpu : nat) : M unit :=
  init_rq_loop cpu 0 NR_PRIORITIES.

(** The [next] field after the first statement of [dequeue_rq_queue]. *)
Definition dequeue_next (rq : nat) (th : ptr) (s : state) : ptr -> ptr :=
  if ptr_eqb (next s (Head rq (priority s th))) th
  then upd (next s) (Head rq (priority s th)) (next s th)
  else upd (next s) (prev s th) (next s th).

(** *** Well-formed run-queues *)

(** [chain f a l z]: following field [f] from [a] visits exactly the
    nodes of [l], in order, and then reaches [z]. *)
Fixpoint chain (f : ptr -> ptr) (a : ptr) (l : list ptr) (z : ptr) : Prop :=
  match l with
  | [] => f a = z
  | b :: l' => f a = b /\ chain f b l' z
  end.

(** The list at priority [p] of run-queue [r] is a consistent circular
    list holding the threads [l]: [next] leads from the head through
    [l] back to the head, [prev] does so in the opposite direction, and
    every member is a thread descriptor of priority [p]. *)
Record rq_list (s : state) (r p : nat) (l : list ptr) : Prop := RqList {
  fwd : chain (next s) (Head r p) l (Head r p);
  bwd : chain (prev s) (Head r p) (rev l) (Head r p);
  nodup : NoDup l;
  members : forall x, In x l -> is_thread x = true /\ priority s x = p
}.

(** [rq->array[p].next == &rq->array[p]], the emptiness test of
    [dequeue_rq_queue]. *)
Definition list_empty (s : state) (r p : nat) : bool :=
  ptr_eqb (next s (Head r p)) (Head r p).

Definition bit (s : state) (r p : nat) : bool :=
  Z.testbit (bitmap s r) (Z.of_nat p).

(** Consistent lists alone: every priority level in range has a
    consistent circular list whose members have that priority; nothing
    is said of the bitmap. *)
Definition rq_lists (s : state) (r : nat) (L : contents) : Prop :=
  forall p, p < NR_PRIORITIES -> rq_list s r p (L p).

(** A well-formed run-queue: every priority level in range has a
    consistent list, and its bitmap bit is set exactly when that list is
    not empty. *)
Definition rq_wf (s : state) (r : nat) (L : contents) : Prop :=
  forall p, p < NR_PRIORITIES ->
    rq_list s r p (L p) /\ bit s r p = negb (list_empty s r p).

(** The nodes that can be linked at priority [q] of run-queue [r]. *)
Definition in_class (s : state) (r q : nat) (x : ptr) : Prop :=
  x = Head r q \/ (is_thread x = true /\ priority s x = q).

(** A consistent circular list of [list.h]: from the head [hd], [next]
    leads through the nodes [l] back to [hd], [prev] the other way
    round; no node occurs twice and none is at address [NULL]. *)
Definition dlist (h : ListNode.heap) (hd : ptr) (l : list ptr) : Prop :=
  chain (ListNode.node_next h) hd l hd /\
  chain (ListNode.node_prev h) hd (rev l) hd /\
  NoDup (hd :: l) /\
  ~ In NULL (hd :: l).

(** *** Queue contents and sequences of operations *)

Definition enq_tail (L : contents) (q : nat) (th : ptr) : contents :=
  fun p => if Nat.eqb p q then L p ++ [th] else L p.

Definition enq_head (L : contents) (q : nat) (th : ptr) : contents :=
  fun p => if Nat.eqb p q then th :: L p else L p.

Definition deq (L : contents) (q : nat) (th : ptr) : contents :=
  fun p => if Nat.eqb p q then remove ptr_eq_dec th (L p) else L p.

Inductive op : Type :=
| Enqueue (th : ptr)
| EnqueueHead (th : ptr)
| Dequeue (th : ptr).

Definition run_op (r : nat) (o : op) (s : state) : state :=
  match o with
  | Enqueue th => final (enqueue_rq_queue r th s)
  | EnqueueHead th => final (enqueue_rq_queue_head r th s)
  | Dequeue th => final (dequeue_rq_queue r th s)
  end.

Definition abs_op (s : state) (o : op) (L : contents) : contents :=
  match o with
  | Enqueue th => enq_tail L (priority s th) th
  | EnqueueHead th => enq_head L (priority s th) th
  | Dequeue th => deq L (priority s th) th
  end.

Fixpoint run_ops (r : nat) (ops : list op) (s : state) : state :=
  match ops with
  | [] => s
  | o :: ops' => run_ops r ops' (run_op r o s)
  end.

Fixpoint abs_ops (r : nat) (s : state) (ops : list op) (L : contents)
  : contents :=
  match ops with
  | [] => L
  | o :: ops' => abs_ops r (run_op r o s) ops' (abs_op s o L)
  end.

(** A thread is queued when it is on one of the lists. *)
Definition queued (L : contents) (th : ptr) : Prop :=
  exists p, p < NR_PRIORITIES /\ In th (L p).

(** The preconditions of section 4.2: an enqueued thread is a thread
    descriptor with a priority in range that is not queued, a dequeued
    thread is queued. *)
Definition op_pre (s : state) (L : contents) (o : op) : Prop :=
  match o with
  | Enqueue th | EnqueueHead th =>
      is_thread th = true /\ priority s th < NR_PRIORITIES /\ ~ queued L th
  | Dequeue th => queued L th
  end.

Fixpoint ops_ok (r : nat) (s : state) (L : contents) (ops : list op) : Prop :=
  match ops with
  | [] => True
  | o :: ops' =>
      op_pre s L o /\ ops_ok r (run_op r o s) (abs_op s o L) ops'
  end.

(** The thread an operation is applied to. *)
Definition op_thread (o : op) : ptr :=
  match o with Enqueue th | EnqueueHead th | Dequeue th => th end.

(** All queued threads, by priority and then by position in the list. *)
Definition order (L : contents) : list ptr :=
  flat_map L (seq 0 NR_PRIORITIES).

(** The observation made of the queue order: pick the next task and
    dequeue it, again and again, until no thread is runnable ([fuel]
    bounds the number of rounds). *)
Fixpoint drain (fuel : nat) (cpu : nat) (s : state) : list ptr :=
  match fuel with
  | O => []
  | S k =>
      let r := pick_next_task cpu s in
      match result r with
      | NULL => []
      | th => th :: drain k cpu (final (dequeue_rq_queue cpu th (final r)))
      end
  end.

(** An index is in bounds when it is below [NR_PRIORITIES], the length
    of [rq->array] and of the bit-vector. *)
Definition in_bounds (a : access) : bool :=
  Nat.ltb (access_index a) NR_PRIORITIES.

(* ================================================================== *)
(** ** Properties of the run-queue *)
(* ================================================================== *)

(** *** Pointer equality and field update *)

Lemma ptr_eqb_eq (a b : ptr) : ptr_eqb a b = true <-> a = b.
Proof.
  destruct a, b; simpl; split; intros E; try discriminate; try reflexivity.
  - apply andb_true_iff in E. destruct E as [E1 E2].
    apply Nat.eqb_eq in E1, E2. now subst.
  - injection E as -> ->. now rewrite !Nat.eqb_refl.
  - apply Nat.eqb_eq in E. now subst.
  - injection E as ->. apply Nat.eqb_refl.
Qed.

Lemma ptr_eqb_refl (a : ptr) : ptr_eqb a a = true.
Proof. now apply ptr_eqb_eq. Qed.

Lemma ptr_eqb_neq (a b : ptr) : ptr_eqb a b = false <-> a <> b.
Proof.
  split.
  - intros E ->. rewrite ptr_eqb_refl in E. discriminate.
  - intros N. destruct (ptr_eqb a b) eqn:E; [|reflexivity].
    apply ptr_eqb_eq in E. contradiction.
Qed.

Lemma upd_same {A} (f : ptr -> A) a v : upd f a v a = v.
Proof. unfold upd. now rewrite ptr_eqb_refl. Qed.

Lemma upd_other {A} (f : ptr -> A) a v x : x <> a -> upd f a v x = f x.
Proof. intros N. unfold upd. apply ptr_eqb_neq in N. now rewrite N. Qed.

Lemma updn_same {A} (f : nat -> A) n v : updn f n v n = v.
Proof. unfold updn. now rewrite Nat.eqb_refl. Qed.

Lemma updn_other {A} (f : nat -> A) n v k : k <> n -> updn f n v k = f k.
Proof. intros N. unfold updn. apply Nat.eqb_neq in N. now rewrite N. Qed.

(** *** What each operation does to each field *)

Section Effects.

Variables (rq : nat) (th : ptr) (s : state).

Lemma enqueue_rq_queue_next :
  next (final (enqueue_rq_queue rq th s)) =
  upd (upd (next s) (prev s (Head rq (priority s th))) th)
      th (Head rq (priority s th)).
Proof. reflexivity. Qed.

Lemma enqueue_rq_queue_prev :
  prev (final (enqueue_rq_queue rq th s)) =
  upd (upd (prev s) th (prev s (Head rq (priority s th))))
      (Head rq (priority s th)) th.
Proof. reflexivity. Qed.

Lemma enqueue_rq_queue_bitmap :
  bitmap (final (enqueue_rq_queue rq th s)) =
  updn (bitmap s) rq (Z.setbit (bitmap s rq) (Z.of_nat (priority s th))).
Proof. reflexivity. Qed.

Lemma enqueue_rq_queue_head_next :
  next (final (enqueue_rq_queue_head rq th s)) =
  upd (upd (next s) th (next s (Head rq (priority s th))))
      (Head rq (priority s th)) th.
Proof. reflexivity. Qed.

Lemma enqueue_rq_queue_head_prev :
  prev (final (enqueue_rq_queue_head rq th s)) =
  upd (upd (prev s) (next s (Head rq (priority s th))) th)
      th (Head rq (priority s th)).
Proof. reflexivity. Qed.

Lemma enqueue_rq_queue_head_bitmap :
  bitmap (final (enqueue_rq_queue_head rq th s)) =
  updn (bitmap s) rq (Z.setbit (bitmap s rq) (Z.of_nat (priority s th))).
Proof. reflexivity. Qed.

Lemma dequeue_rq_queue_next :
  next (final (dequeue_rq_queue rq th s)) = dequeue_next rq th s.
Proof.
  unfold dequeue_next, dequeue_rq_queue, bind, final, slot. simpl.
  destruct (ptr_eqb _ th); simpl;
    destruct (ptr_eqb _ (Head _ _)); reflexivity.
Qed.

Lemma dequeue_rq_queue_prev :
  prev (final (dequeue_rq_queue rq th s)) =
  upd (prev s) (dequeue_next rq th s th) (prev s th).
Proof.
  unfold dequeue_next, dequeue_rq_queue, bind, final, slot. simpl.
  destruct (ptr_eqb _ th); simpl;
    destruct (ptr_eqb _ (Head _ _)); reflexivity.
Qed.

Lemma dequeue_rq_queue_bitmap :
  bitmap (final (dequeue_rq_queue rq th s)) =
  if ptr_eqb (dequeue_next rq th s (Head rq (priority s th)))
               (Head rq (priority s th))
  then updn (bitmap s) rq (Z.clearbit (bitmap s rq) (Z.of_nat (priority s th)))
  else bitmap s.
Proof.
  unfold dequeue_next, dequeue_rq_queue, bind, final, slot. simpl.
  destruct (ptr_eqb _ th); simpl;
    destruct (ptr_eqb _ (Head _ _)); reflexivity.
Qed.

Lemma enqueue_rq_queue_priority :
  priority (final (enqueue_rq_queue rq th s)) = priority s.
Proof. reflexivity. Qed.

Lemma enqueue_rq_queue_head_priority :
  priority (final (enqueue_rq_queue_head rq th s)) = priority s.
Proof. reflexivity. Qed.

Lemma dequeue_rq_queue_priority :
  priority (final (dequeue_rq_queue rq th s)) = priority s.
Proof.
  unfold dequeue_rq_queue, bind, final, slot. simpl.
  destruct (ptr_eqb _ th); simpl;
    destruct (ptr_eqb _ (Head _ _)); reflexivity.
Qed.

Lemma enqueue_rq_queue_bindex :
  bindex (final (enqueue_rq_queue rq th s)) = bindex s.
Proof. reflexivity. Qed.

Lemma enqueue_rq_queue_head_bindex :
  bindex (final (enqueue_rq_queue_head rq th s)) = bindex s.
Proof. reflexivity. Qed.

Lemma dequeue_rq_queue_bindex :
  bindex (final (dequeue_rq_queue rq th s)) = bindex s.
Proof.
  unfold dequeue_rq_queue, bind, final, slot. simpl.
  destruct (ptr_eqb _ th); simpl;
    destruct (ptr_eqb _ (Head _ _)); reflexivity.
Qed.

End Effects.

(** *** Chains of links *)

Lemma chain_app f a l1 b l2 z :
  chain f a (l1 ++ b :: l2) z <-> chain f a l1 b /\ chain f b l2 z.
Proof.
  revert a. induction l1 as [|c l1 IH]; intros a; simpl.
  - tauto.
  - rewrite IH. tauto.
Qed.

Lemma chain_frame f g a l z :
  (forall x, In x (a :: l) -> g x = f x) -> chain f a l z -> chain g a l z.
Proof.
  revert a. induction l as [|b l IH]; intros a E C; simpl in *.
  - rewrite E; auto.
  - destruct C as [C1 C2]. split.
    + rewrite E; auto.
    + apply IH; [|exact C2]. intros x Hx. apply E. now right.
Qed.

Lemma chain_first f a l z : chain f a l z -> f a = hd z l.
Proof. destruct l; simpl; tauto. Qed.

Lemma last_cons_in (b : ptr) (l : list ptr) (a : ptr) :
  last (b :: l) a = last l b.
Proof.
  revert a b. induction l as [|c l IH]; intros a b; [reflexivity|].
  change (last (b :: c :: l) a) with (last (c :: l) a).
  now rewrite (IH a c), (IH b c).
Qed.

Lemma chain_last f a l z : chain f a l z -> f (last l a) = z.
Proof.
  revert a. induction l as [|b l IH]; intros a C.
  - exact C.
  - destruct C as [_ C]. rewrite last_cons_in. now apply IH.
Qed.

Lemma last_in (l : list ptr) (a : ptr) : In (last l a) (a :: l).
Proof.
  revert a. induction l as [|b l IH]; intros a.
  - now left.
  - right. rewrite last_cons_in. apply IH.
Qed.

(** Redirecting the last link of a chain. *)
Lemma chain_redirect f a l z v :
  chain f a l z -> NoDup (a :: l) -> chain (upd f (last l a) v) a l v.
Proof.
  revert a. induction l as [|b l IH]; intros a C ND.
  - simpl. apply upd_same.
  - destruct C as [C1 C2]. rewrite last_cons_in. split.
    + rewrite upd_other; auto.
      intros E. apply NoDup_cons_iff in ND as [Hn _]. apply Hn.
      rewrite E. apply last_in.
    + apply IH; auto. now apply NoDup_cons_iff in ND.
Qed.

(** Linking a new node right after the start of a chain. *)
Lemma chain_insert_after f a l z th :
  chain f a l z -> NoDup (a :: l) -> ~ In th (a :: l) ->
  chain (upd (upd f th (f a)) a th) a (th :: l) z.
Proof.
  intros C ND Hth. simpl. split; [apply upd_same|].
  assert (Hta : th <> a) by (intros ->; apply Hth; now left).
  destruct l as [|b l]; simpl in *.
  - rewrite upd_other, upd_same; auto.
  - destruct C as [C1 C2]. split.
    + rewrite upd_other, upd_same; auto.
    + apply chain_frame with (f := f); auto.
      intros x Hx. rewrite !upd_other; auto.
      * intros ->. apply Hth. now right.
      * intros ->. apply NoDup_cons_iff in ND as [Hn _]. auto.
Qed.

(** Linking a new node right before the end of a chain. *)
Lemma chain_insert_end f a l z th :
  chain f a l z -> NoDup (a :: l) -> ~ In th (a :: l) ->
  chain (upd (upd f (last l a) th) th z) a (l ++ [th]) z.
Proof.
  intros C ND Hth. apply chain_app. split.
  - apply chain_frame with (f := upd f (last l a) th).
    + intros x Hx. apply upd_other. intros ->. auto.
    + eapply chain_redirect; eauto.
  - simpl. apply upd_same.
Qed.

Lemma NoDup_app_disjoint (l1 l2 : list ptr) x :
  NoDup (l1 ++ l2) -> In x l1 -> In x l2 -> False.
Proof.
  induction l1 as [|a l1 IH]; simpl; intros ND H1 H2; [contradiction|].
  inversion ND as [|? ? Hn ND']; subst. destruct H1 as [->|H1].
  - apply Hn. apply in_or_app. now right.
  - now apply IH.
Qed.

(** Unlinking a node. *)
Lemma chain_remove f a l1 th l2 z :
  chain f a (l1 ++ th :: l2) z -> NoDup (a :: l1 ++ th :: l2) ->
  chain (upd f (last l1 a) (f th)) a (l1 ++ l2) z.
Proof.
  intros C ND. apply chain_app in C. destruct C as [C1 C2].
  rewrite app_comm_cons in ND.
  assert (ND1 : NoDup (a :: l1)) by now apply NoDup_app_remove_r in ND.
  destruct l2 as [|b l2].
  - rewrite app_nil_r. simpl in C2. rewrite C2.
    eapply chain_redirect; eauto.
  - destruct C2 as [C2 C3]. rewrite C2. apply chain_app. split.
    + eapply chain_redirect; eauto.
    + apply chain_frame with (f := f); auto.
      intros x Hx. apply upd_other. intros ->.
      apply (NoDup_app_disjoint _ _ (last l1 a) ND).
      * apply last_in.
      * now right.
Qed.

(** *** Consistent lists *)

Lemma in_class_neq s r p q x y :
  p <> q -> in_class s r p x -> in_class s r q y -> x <> y.
Proof.
  intros N [->|[Tx Px]] [->|[Ty Py]] E; subst; try discriminate.
  - injection E as E. contradiction.
  - contradiction.
Qed.

Lemma rq_list_class s r p l x :
  rq_list s r p l -> In x (Head r p :: l) -> in_class s r p x.
Proof.
  intros W [<-|Hx]; [now left|right]. now apply (members W).
Qed.

Lemma rq_list_class_rev s r p l x :
  rq_list s r p l -> In x (Head r p :: rev l) -> in_class s r p x.
Proof.
  intros W [<-|Hx]; [now left|right].
  apply in_rev in Hx. now apply (members W).
Qed.

Lemma rq_list_head_notin s r p l h i :
  rq_list s r p l -> ~ In (Head h i) l.
Proof. intros W Hin. apply (members W) in Hin. now destruct Hin. Qed.

Lemma rq_list_nodup s r p l : rq_list s r p l -> NoDup (Head r p :: l).
Proof.
  intros W. constructor; [eapply rq_list_head_notin; eauto | apply W].
Qed.

Lemma rq_list_nodup_rev s r p l :
  rq_list s r p l -> NoDup (Head r p :: rev l).
Proof.
  intros W. constructor.
  - rewrite <- in_rev. eapply rq_list_head_notin; eauto.
  - apply NoDup_rev, W.
Qed.

Lemma rq_list_empty s r p l :
  rq_list s r p l ->
  list_empty s r p = match l with [] => true | _ => false end.
Proof.
  intros W. unfold list_empty. rewrite (chain_first _ _ _ _ (fwd W)).
  destruct l as [|x l]; cbv [hd].
  - apply ptr_eqb_refl.
  - apply ptr_eqb_neq. intros ->.
    eapply rq_list_head_notin; [exact W | now left].
Qed.

(** The tail and the first node, as the code reads them. *)
Lemma rq_list_prev_head s r p l :
  rq_list s r p l -> prev s (Head r p) = last l (Head r p).
Proof.
  intros W. rewrite (chain_first _ _ _ _ (bwd W)).
  destruct l as [|x l] using rev_ind; [reflexivity|].
  rewrite rev_app_distr, last_last. reflexivity.
Qed.

Lemma rq_list_next_head s r p l :
  rq_list s r p l -> next s (Head r p) = hd (Head r p) l.
Proof. intros W. apply (chain_first _ _ _ _ (fwd W)). Qed.

Lemma hd_last_rev (l : list ptr) (d : ptr) : hd d l = last (rev l) d.
Proof.
  destruct l as [|x l]; [reflexivity|]. simpl. now rewrite last_last.
Qed.

(** A state change that leaves the nodes of a class alone leaves its
    list alone. *)
Lemma rq_list_frame s s' r p l :
  rq_list s r p l ->
  priority s' = priority s ->
  (forall x, in_class s r p x ->
             next s' x = next s x /\ prev s' x = prev s x) ->
  rq_list s' r p l.
Proof.
  intros W EP F. constructor.
  - apply chain_frame with (f := next s); [|apply W].
    intros x Hx. apply F. eapply rq_list_class; eauto.
  - apply chain_frame with (f := prev s); [|apply W].
    intros x Hx. apply F. eapply rq_list_class_rev; eauto.
  - apply W.
  - intros x Hx. rewrite EP. now apply (members W).
Qed.

(** *** The operations on one list *)

Lemma enqueue_rq_queue_list s r th l :
  rq_list s r (priority s th) l -> is_thread th = true -> ~ In th l ->
  rq_list (final (enqueue_rq_queue r th s)) r (priority s th) (l ++ [th]).
Proof.
  intros W T Hth.
  assert (Hth' : ~ In th (Head r (priority s th) :: l)).
  { intros [E|Hin]; [rewrite <- E in T; discriminate | contradiction]. }
  constructor.
  - rewrite enqueue_rq_queue_next, (rq_list_prev_head W).
    apply chain_insert_end; [apply W | eapply rq_list_nodup; eauto | exact Hth'].
  - rewrite enqueue_rq_queue_prev, rev_unit.
    apply chain_insert_after;
      [apply W | eapply rq_list_nodup_rev; eauto |].
    intros [E|Hin]; [rewrite <- E in T; discriminate|].
    apply in_rev in Hin. contradiction.
  - apply NoDup_app; [apply W | repeat constructor; intros [] |].
    intros a Ha [<-|[]]. contradiction.
  - intros x Hx. rewrite enqueue_rq_queue_priority.
    apply in_app_or in Hx. destruct Hx as [Hx|[<-|[]]]; [|now split].
    now apply (members W).
Qed.

Lemma enqueue_rq_queue_head_list s r th l :
  rq_list s r (priority s th) l -> is_thread th = true -> ~ In th l ->
  rq_list (final (enqueue_rq_queue_head r th s)) r (priority s th) (th :: l).
Proof.
  intros W T Hth.
  assert (Hth' : ~ In th (Head r (priority s th) :: l)).
  { intros [E|Hin]; [rewrite <- E in T; discriminate | contradiction]. }
  constructor.
  - rewrite enqueue_rq_queue_head_next.
    apply chain_insert_after; [apply W | eapply rq_list_nodup; eauto | exact Hth'].
  - rewrite enqueue_rq_queue_head_prev, (rq_list_next_head W), hd_last_rev.
    change (rev (th :: l)) with (rev l ++ [th]).
    apply chain_insert_end;
      [apply W | eapply rq_list_nodup_rev; eauto |].
    intros [E|Hin]; [rewrite <- E in T; discriminate|].
    apply in_rev in Hin. contradiction.
  - constructor; [exact Hth | apply W].
  - intros x Hx. rewrite enqueue_rq_queue_head_priority.
    destruct Hx as [<-|Hx]; [now split|]. now apply (members W).
Qed.

(** On a consistent list both branches of the first statement of
    [dequeue_rq_queue] store [th->next] into the predecessor of [th]. *)
Lemma dequeue_next_eq s r th l1 l2 :
  rq_list s r (priority s th) (l1 ++ th :: l2) ->
  dequeue_next r th s =
  upd (next s) (last l1 (Head r (priority s th))) (next s th).
Proof.
  intros W. unfold dequeue_next.
  destruct (ptr_eqb _ th) eqn:E.
  - apply ptr_eqb_eq in E. rewrite (rq_list_next_head W) in E.
    destruct l1 as [|x l1]; [reflexivity|]. simpl in E. subst x.
    pose proof (nodup W) as ND. simpl in ND.
    apply NoDup_cons_iff in ND as [Hn _]. exfalso. apply Hn.
    apply in_or_app. right. now left.
  - f_equal. pose proof (bwd W) as B.
    rewrite rev_app_distr in B. simpl in B. rewrite <- app_assoc in B.
    apply chain_app in B. destruct B as [_ B].
    rewrite (chain_first _ _ _ _ B), hd_last_rev, rev_involutive.
    reflexivity.
Qed.

Lemma dequeue_rq_queue_list s r th l1 l2 :
  rq_list s r (priority s th) (l1 ++ th :: l2) ->
  rq_list (final (dequeue_rq_queue r th s)) r (priority s th) (l1 ++ l2).
Proof.
  intros W.
  pose proof (rq_list_nodup W) as ND.
  pose proof (rq_list_nodup_rev W) as NDr.
  assert (Hrev : rev (l1 ++ th :: l2) = rev l2 ++ th :: rev l1).
  { rewrite rev_app_distr. simpl. now rewrite <- app_assoc. }
  rewrite Hrev in NDr.
  constructor.
  - rewrite dequeue_rq_queue_next, (dequeue_next_eq _ _ _ W).
    apply chain_remove; [apply W | exact ND].
  - rewrite dequeue_rq_queue_prev, (dequeue_next_eq _ _ _ W).
    rewrite upd_other.
    + pose proof (fwd W) as F. apply chain_app in F. destruct F as [_ F].
      rewrite (chain_first _ _ _ _ F), hd_last_rev, rev_app_distr.
      apply chain_remove; [|exact NDr].
      rewrite <- Hrev. apply W.
    + intros E. rewrite app_comm_cons in ND.
      apply (NoDup_app_disjoint _ _ th ND); [|now left].
      pose proof (last_in l1 (Head r (priority s th))) as HL.
      now rewrite <- E in HL.
  - eapply NoDup_remove_1, W.
  - intros x Hx. rewrite dequeue_rq_queue_priority. apply (members W).
    apply in_app_or in Hx. apply in_or_app.
    destruct Hx; [now left | right; now right].
Qed.

(** *** The operations on the other lists *)

Lemma enqueue_rq_queue_other s r th p l lq :
  rq_list s r p l -> rq_list s r (priority s th) lq ->
  is_thread th = true -> p <> priority s th ->
  rq_list (final (enqueue_rq_queue r th s)) r p l.
Proof.
  intros W Wq T N. apply rq_list_frame with (s := s); auto.
  intros x Cx.
  assert (Hx : forall y, in_class s r (priority s th) y -> x <> y)
    by (intros y Cy; eapply in_class_neq; eauto).
  assert (Hth : x <> th) by (apply Hx; now right).
  assert (Hh : x <> Head r (priority s th)) by (apply Hx; now left).
  assert (Ht : x <> prev s (Head r (priority s th))).
  { apply Hx. rewrite (rq_list_prev_head Wq).
    eapply rq_list_class; eauto. apply last_in. }
  rewrite enqueue_rq_queue_next, enqueue_rq_queue_prev.
  now rewrite !upd_other.
Qed.

Lemma enqueue_rq_queue_head_other s r th p l lq :
  rq_list s r p l -> rq_list s r (priority s th) lq ->
  is_thread th = true -> p <> priority s th ->
  rq_list (final (enqueue_rq_queue_head r th s)) r p l.
Proof.
  intros W Wq T N. apply rq_list_frame with (s := s); auto.
  intros x Cx.
  assert (Hx : forall y, in_class s r (priority s th) y -> x <> y)
    by (intros y Cy; eapply in_class_neq; eauto).
  assert (Hth : x <> th) by (apply Hx; now right).
  assert (Hh : x <> Head r (priority s th)) by (apply Hx; now left).
  assert (Ht : x <> next s (Head r (priority s th))).
  { apply Hx. rewrite (rq_list_next_head Wq), hd_last_rev.
    eapply rq_list_class_rev; eauto. apply last_in. }
  rewrite enqueue_rq_queue_head_next, enqueue_rq_queue_head_prev.
  now rewrite !upd_other.
Qed.

Lemma dequeue_rq_queue_other s r th p l l1 l2 :
  rq_list s r p l -> rq_list s r (priority s th) (l1 ++ th :: l2) ->
  p <> priority s th ->
  rq_list (final (dequeue_rq_queue r th s)) r p l.
Proof.
  intros W Wq N. apply rq_list_frame with (s := s).
  - exact W.
  - apply dequeue_rq_queue_priority.
  - intros x Cx.
    assert (Hx : forall y, in_class s r (priority s th) y -> x <> y)
      by (intros y Cy; eapply in_class_neq; eauto).
    assert (Hl1 : forall y, In y (Head r (priority s th) :: l1) ->
                            in_class s r (priority s th) y).
    { intros y Hy. apply (rq_list_class Wq).
      destruct Hy as [<-|Hy]; [now left|right].
      apply in_or_app. now left. }
    assert (Hth : x <> th).
    { apply Hx, (rq_list_class Wq). right. apply in_or_app. right. now left. }
    rewrite dequeue_rq_queue_next, dequeue_rq_queue_prev, (dequeue_next_eq _ _ _ Wq).
    assert (Hlast : x <> last l1 (Head r (priority s th)))
      by (apply Hx, Hl1, last_in).
    split; [now apply upd_other|].
    apply upd_other. rewrite upd_other.
    + pose proof (fwd Wq) as F. apply chain_app in F. destruct F as [_ F].
      rewrite (chain_first _ _ _ _ F). apply Hx.
      destruct l2 as [|y l2]; simpl; [now left|].
      apply (rq_list_class Wq). right. apply in_or_app. right. right. now left.
    + intros E. pose proof (rq_list_nodup Wq) as ND.
      rewrite app_comm_cons in ND.
      apply (NoDup_app_disjoint _ _ th ND); [|now left].
      pose proof (last_in l1 (Head r (priority s th))) as HL.
      now rewrite <- E in HL.
Qed.

(** *** The operations on the bitmap *)

Lemma bit_set_same (b : nat -> Z) r q :
  Z.testbit (updn b r (Z.setbit (b r) (Z.of_nat q)) r) (Z.of_nat q) = true.
Proof. rewrite updn_same. apply Z.setbit_eq. lia. Qed.

Lemma bit_set_other (b : nat -> Z) r q p :
  p <> q ->
  Z.testbit (updn b r (Z.setbit (b r) (Z.of_nat q)) r) (Z.of_nat p) =
  Z.testbit (b r) (Z.of_nat p).
Proof. intros N. rewrite updn_same. apply Z.setbit_neq; lia. Qed.

Lemma bit_clear_same (b : nat -> Z) r q :
  Z.testbit (updn b r (Z.clearbit (b r) (Z.of_nat q)) r) (Z.of_nat q) = false.
Proof. rewrite updn_same. apply Z.clearbit_eq. Qed.

Lemma bit_clear_other (b : nat -> Z) r q p :
  p <> q ->
  Z.testbit (updn b r (Z.clearbit (b r) (Z.of_nat q)) r) (Z.of_nat p) =
  Z.testbit (b r) (Z.of_nat p).
Proof. intros N. rewrite updn_same. apply Z.clearbit_neq; lia. Qed.

(** *** The operations on the queue contents *)

Lemma remove_split (th : ptr) (l : list ptr) :
  In th l -> NoDup l ->
  exists l1 l2, l = l1 ++ th :: l2 /\ remove ptr_eq_dec th l = l1 ++ l2.
Proof.
  intros Hin ND. destruct (in_split _ _ Hin) as (l1 & l2 & ->).
  exists l1, l2. split; [reflexivity|].
  apply NoDup_remove_2 in ND.
  rewrite remove_app, remove_cons, !notin_remove; auto.
  - intros H. apply ND, in_or_app. now right.
  - intros H. apply ND, in_or_app. now left.
Qed.

Lemma enqueue_rq_queue_wf s r L th :
  rq_wf s r L -> is_thread th = true ->
  priority s th < NR_PRIORITIES -> ~ In th (L (priority s th)) ->
  rq_wf (final (enqueue_rq_queue r th s)) r (enq_tail L (priority s th) th).
Proof.
  intros W T Hq Hth p Hp. unfold enq_tail.
  destruct (W _ Hq) as [Wq Bq]. destruct (W _ Hp) as [Wp Bp].
  destruct (Nat.eqb_spec p (priority s th)) as [->|N].
  - pose proof (enqueue_rq_queue_list _ Wq T Hth) as W'. split; [exact W'|].
    rewrite (rq_list_empty W'). unfold bit.
    rewrite enqueue_rq_queue_bitmap, bit_set_same.
    now destruct (L (priority s th)).
  - pose proof (enqueue_rq_queue_other _ Wp Wq T N) as W'. split; [exact W'|].
    rewrite (rq_list_empty W'), <- (rq_list_empty Wp), <- Bp. unfold bit.
    rewrite enqueue_rq_queue_bitmap. now apply bit_set_other.
Qed.

Lemma enqueue_rq_queue_head_wf s r L th :
  rq_wf s r L -> is_thread th = true ->
  priority s th < NR_PRIORITIES -> ~ In th (L (priority s th)) ->
  rq_wf (final (enqueue_rq_queue_head r th s)) r
        (enq_head L (priority s th) th).
Proof.
  intros W T Hq Hth p Hp. unfold enq_head.
  destruct (W _ Hq) as [Wq Bq]. destruct (W _ Hp) as [Wp Bp].
  destruct (Nat.eqb_spec p (priority s th)) as [->|N].
  - pose proof (enqueue_rq_queue_head_list _ Wq T Hth) as W'. split; [exact W'|].
    rewrite (rq_list_empty W'). unfold bit.
    now rewrite enqueue_rq_queue_head_bitmap, bit_set_same.
  - pose proof (enqueue_rq_queue_head_other _ Wp Wq T N) as W'.
    split; [exact W'|].
    rewrite (rq_list_empty W'), <- (rq_list_empty Wp), <- Bp. unfold bit.
    rewrite enqueue_rq_queue_head_bitmap. now apply bit_set_other.
Qed.

Lemma dequeue_rq_queue_wf s r L th :
  rq_wf s r L ->
  priority s th < NR_PRIORITIES -> In th (L (priority s th)) ->
  rq_wf (final (dequeue_rq_queue r th s)) r (deq L (priority s th) th).
Proof.
  intros W Hq Hth p Hp. unfold deq.
  destruct (W _ Hq) as [Wq Bq]. destruct (W _ Hp) as [Wp Bp].
  destruct (remove_split _ Hth (nodup Wq)) as (l1 & l2 & E & R).
  rewrite E in Wq.
  pose proof (dequeue_rq_queue_list _ _ _ Wq) as Wq'.
  assert (Hb : ptr_eqb (dequeue_next r th s (Head r (priority s th)))
                       (Head r (priority s th)) =
               match l1 ++ l2 with [] => true | _ => false end).
  { rewrite <- (rq_list_empty Wq'). unfold list_empty.
    now rewrite dequeue_rq_queue_next. }
  destruct (Nat.eqb_spec p (priority s th)) as [->|N].
  - rewrite R. split; [exact Wq'|].
    rewrite (rq_list_empty Wq'). unfold bit.
    rewrite dequeue_rq_queue_bitmap, Hb.
    destruct (l1 ++ l2) eqn:E12.
    + apply bit_clear_same.
    + fold (bit s r (priority s th)). rewrite Bq, (rq_list_empty Wq).
      now destruct l1.
  - pose proof (dequeue_rq_queue_other _ _ _ Wp Wq N) as W'.
    split; [exact W'|].
    rewrite (rq_list_empty W'), <- (rq_list_empty Wp), <- Bp. unfold bit.
    rewrite dequeue_rq_queue_bitmap.
    destruct (ptr_eqb _ _); [now apply bit_clear_other | reflexivity].
Qed.

(** *** Sequences of operations *)

Lemma queued_priority s r L th :
  rq_wf s r L -> queued L th ->
  priority s th < NR_PRIORITIES /\ In th (L (priority s th)).
Proof.
  intros W (p & Hp & Hin). destruct (W _ Hp) as [Wp _].
  destruct (members Wp _ Hin) as [_ <-]. now split.
Qed.

Lemma not_queued_priority s L th :
  priority s th < NR_PRIORITIES -> ~ queued L th ->
  ~ In th (L (priority s th)).
Proof. intros Hp NQ Hin. apply NQ. now exists (priority s th). Qed.

Lemma run_op_wf s r L o :
  rq_wf s r L -> op_pre s L o -> rq_wf (run_op r o s) r (abs_op s o L).
Proof.
  intros W Pre. destruct o as [th|th|th]; simpl in *.
  - destruct Pre as (T & Hp & NQ).
    apply enqueue_rq_queue_wf; eauto using not_queued_priority.
  - destruct Pre as (T & Hp & NQ).
    apply enqueue_rq_queue_head_wf; eauto using not_queued_priority.
  - destruct (queued_priority W Pre) as [Hp Hin].
    now apply dequeue_rq_queue_wf.
Qed.

Lemma run_ops_wf ops : forall s r L,
  rq_wf s r L -> ops_ok r s L ops ->
  rq_wf (run_ops r ops s) r (abs_ops r s ops L).
Proof.
  induction ops as [|o ops IH]; intros s r L W Ok; simpl in *.
  - exact W.
  - destruct Ok as [Pre Ok]. apply IH; [|exact Ok].
    now apply run_op_wf.
Qed.

(** C1, as it holds of the code.  The three operations keep the
    agreement of bitmap and lists, they do not bring it about: from a
    run-queue with consistent lists whose bitmap agrees with them (bit
    [p] set if and only if the list at [p] is not empty), after any
    sequence of [enqueue_rq_queue] / [enqueue_rq_queue_head] /
    [dequeue_rq_queue] calls whose preconditions hold, bit [p] of the
    bitmap is set if and only if the list at priority [p] is not empty
    (its head does not point to itself, that is, some thread is queued
    there). *)
Theorem bitmap_list_consistency s r L ops p :
  rq_lists s r L ->
  (forall q, q < NR_PRIORITIES -> bit s r q = negb (list_empty s r q)) ->
  ops_ok r s L ops -> p < NR_PRIORITIES ->
  (bit (run_ops r ops s) r p = true <->
   list_empty (run_ops r ops s) r p = false) /\
  (list_empty (run_ops r ops s) r p = false <-> abs_ops r s ops L p <> []).
Proof.
  intros Wl Wb Ok Hp.
  assert (W : rq_wf s r L) by (intros q Hq; split; [apply Wl | apply Wb]; exact Hq).
  destruct (run_ops_wf ops W Ok Hp) as [Wp Bp].
  rewrite Bp, (rq_list_empty Wp).
  destruct (abs_ops r s ops L p); simpl; split; split;
    intros; try reflexivity; try discriminate; congruence.
Qed.

(** *** Picking the next task *)

Lemma first_bit_from_spec b n : forall i,
  let k := first_bit_from b i n in
  i <= k <= i + n /\
  (forall j, i <= j < k -> Z.testbit b (Z.of_nat j) = false) /\
  (k < i + n -> Z.testbit b (Z.of_nat k) = true).
Proof.
  induction n as [|n IH]; intros i; simpl.
  - repeat split; lia.
  - destruct (Z.testbit b (Z.of_nat i)) eqn:E.
    + repeat split; try lia. auto.
    + destruct (IH (S i)) as (Hr & Hlow & Hset).
      repeat split; try lia.
      * intros j Hj. destruct (Nat.eq_dec j i) as [->|N]; [exact E|].
        apply Hlow. lia.
      * intros Hk. apply Hset. lia.
Qed.

Lemma find_first_bit_none b w :
  (forall p, p < NR_PRIORITIES -> Z.testbit b (Z.of_nat p) = false) ->
  find_first_bit b w = NR_PRIORITIES.
Proof.
  intros Hz. unfold find_first_bit.
  destruct (first_bit_from_spec b NR_PRIORITIES 0) as (Hr & _ & Hset).
  destruct (Nat.eq_dec (first_bit_from b 0 NR_PRIORITIES) NR_PRIORITIES)
    as [E|N]; [exact E|].
  assert (Hlt : first_bit_from b 0 NR_PRIORITIES < NR_PRIORITIES) by lia.
  rewrite Hz in Hset by exact Hlt.
  assert (false = true) by (apply Hset; lia). discriminate.
Qed.

Lemma find_first_bit_some b w p :
  p < NR_PRIORITIES -> Z.testbit b (Z.of_nat p) = true ->
  (forall q, q < p -> Z.testbit b (Z.of_nat q) = false) ->
  find_first_bit b w = p.
Proof.
  intros Hp Hset Hlow. unfold find_first_bit.
  destruct (first_bit_from_spec b NR_PRIORITIES 0) as (Hr & Hlow' & Hset').
  set (k := first_bit_from b 0 NR_PRIORITIES) in *.
  destruct (Nat.lt_trichotomy k p) as [Hlt|[E|Hgt]]; [|exact E|].
  - rewrite Hlow in Hset' by exact Hlt.
    assert (false = true) by (apply Hset'; lia). discriminate.
  - rewrite Hlow' in Hset by lia. discriminate.
Qed.

Lemma pick_next_task_result cpu s :
  result (pick_next_task cpu s) =
  let i := find_first_bit (bitmap s cpu) NR_PRIORITY_BITMAPS in
  if negb (Nat.eqb i NR_PRIORITIES) then next s (Head cpu i) else NULL.
Proof.
  unfold pick_next_task, bind, result, get_bitmap, set_bindex, get_bindex,
    array_at, get_next, ret.
  simpl. rewrite updn_same.
  destruct (Nat.eqb _ NR_PRIORITIES); simpl; [reflexivity|].
  now rewrite updn_same.
Qed.

Lemma pick_next_task_final cpu s :
  final (pick_next_task cpu s) =
  State (next s) (prev s) (priority s) (bitmap s)
        (updn (bindex s) cpu
              (find_first_bit (bitmap s cpu) NR_PRIORITY_BITMAPS)).
Proof.
  unfold pick_next_task, bind, final, get_bitmap, set_bindex, get_bindex,
    array_at, get_next, ret.
  simpl. rewrite updn_same.
  destruct (Nat.eqb _ NR_PRIORITIES); reflexivity.
Qed.

(** C2.  [pick_next_task] returns [NULL] when no bit of the calling
    CPU's bitmap is set, and otherwise the first thread
    ([array[p].next]) of the list at the lowest set bit [p]; either way
    it leaves every link, every priority and every bitmap as it was. *)
Theorem pick_next_task_spec cpu s :
  next (final (pick_next_task cpu s)) = next s /\
  prev (final (pick_next_task cpu s)) = prev s /\
  priority (final (pick_next_task cpu s)) = priority s /\
  bitmap (final (pick_next_task cpu s)) = bitmap s /\
  ((forall p, p < NR_PRIORITIES -> bit s cpu p = false) ->
   result (pick_next_task cpu s) = NULL) /\
  (forall p, p < NR_PRIORITIES -> bit s cpu p = true ->
             (forall q, q < p -> bit s cpu q = false) ->
             result (pick_next_task cpu s) = next s (Head cpu p)).
Proof.
  rewrite pick_next_task_final, pick_next_task_result. simpl.
  repeat split.
  - intros Hz. rewrite find_first_bit_none by exact Hz.
    now rewrite Nat.eqb_refl.
  - intros p Hp Hset Hlow.
    rewrite (find_first_bit_some _ _ Hp Hset Hlow).
    apply Nat.lt_neq, Nat.eqb_neq in Hp. now rewrite Hp.
Qed.

(** *** Service order *)

Lemma flat_map_nil (L : contents) (l : list nat) :
  (forall j, In j l -> L j = []) -> flat_map L l = [].
Proof.
  induction l as [|a l IH]; intros E; simpl; [reflexivity|].
  rewrite E by now left. apply IH. intros j Hj. apply E. now right.
Qed.

Lemma flat_map_agree (L L' : contents) (l : list nat) :
  (forall j, In j l -> L j = L' j) -> flat_map L l = flat_map L' l.
Proof.
  induction l as [|a l IH]; intros E; simpl; [reflexivity|].
  rewrite E by now left. f_equal. apply IH. intros j Hj. apply E. now right.
Qed.

Lemma order_split (L : contents) k :
  k < NR_PRIORITIES ->
  order L = flat_map L (seq 0 k) ++ L k ++
            flat_map L (seq (S k) (NR_PRIORITIES - S k)).
Proof.
  intros Hk. unfold order.
  replace NR_PRIORITIES with (k + S (NR_PRIORITIES - S k)) at 1 by lia.
  rewrite seq_app, flat_map_app. reflexivity.
Qed.

Lemma order_first (L : contents) k :
  k < NR_PRIORITIES -> (forall j, j < k -> L j = []) ->
  order L = L k ++ flat_map L (seq (S k) (NR_PRIORITIES - S k)).
Proof.
  intros Hk Hlow. rewrite (order_split L Hk), flat_map_nil; [reflexivity|].
  intros j Hj. apply in_seq in Hj. apply Hlow. lia.
Qed.

Lemma order_nil (L : contents) :
  (forall j, j < NR_PRIORITIES -> L j = []) -> order L = [].
Proof.
  intros E. apply flat_map_nil. intros j Hj. apply in_seq in Hj.
  apply E. lia.
Qed.

Lemma rq_wf_fields s s' r L :
  next s' = next s -> prev s' = prev s -> priority s' = priority s ->
  bitmap s' = bitmap s -> rq_wf s r L -> rq_wf s' r L.
Proof.
  intros En Ep Epr Eb W p Hp. destruct (W p Hp) as [Wp Bp]. split.
  - apply rq_list_frame with (s := s); auto.
    intros x _. now rewrite En, Ep.
  - unfold bit, list_empty in *. now rewrite Eb, En.
Qed.

Lemma rq_wf_bit s r L p :
  rq_wf s r L -> p < NR_PRIORITIES ->
  bit s r p = match L p with [] => false | _ => true end.
Proof.
  intros W Hp. destruct (W p Hp) as [Wp Bp].
  rewrite Bp, (rq_list_empty Wp). now destruct (L p).
Qed.

(** On a well-formed run-queue [find_first_bit] is the lowest priority
    with a queued thread. *)
Lemma rq_wf_first s r L w :
  rq_wf s r L ->
  let k := find_first_bit (bitmap s r) w in
  (forall j, j < k -> L j = []) /\
  (k = NR_PRIORITIES \/ (k < NR_PRIORITIES /\ L k <> [])).
Proof.
  intros W k. unfold find_first_bit in k.
  destruct (first_bit_from_spec (bitmap s r) NR_PRIORITIES 0)
    as (Hr & Hlow & Hset). fold k in Hr, Hlow, Hset. split.
  - intros j Hj. assert (Hjn : j < NR_PRIORITIES) by lia.
    pose proof (rq_wf_bit W Hjn) as B. unfold bit in B.
    rewrite Hlow in B by lia. now destruct (L j).
  - destruct (Nat.eq_dec k NR_PRIORITIES) as [E|N]; [now left|right].
    assert (Hk : k < NR_PRIORITIES) by lia. split; [exact Hk|].
    pose proof (rq_wf_bit W Hk) as B. unfold bit in B.
    rewrite Hset in B by lia. now destruct (L k).
Qed.

(** On a well-formed run-queue [pick_next_task] returns the first
    thread in service order, [NULL] when there is none. *)
Lemma pick_next_task_wf s r L :
  rq_wf s r L -> result (pick_next_task r s) = hd NULL (order L).
Proof.
  intros W. rewrite pick_next_task_result.
  destruct (rq_wf_first NR_PRIORITY_BITMAPS W) as (Hlow & [E|[Hk Hne]]).
  - cbv zeta. rewrite E, Nat.eqb_refl. simpl.
    rewrite order_nil; [reflexivity|]. now rewrite <- E.
  - cbv zeta.
    set (k := find_first_bit (bitmap s r) NR_PRIORITY_BITMAPS) in *.
    rewrite (order_first L Hk Hlow).
    destruct (W k Hk) as [Wk _].
    rewrite (proj2 (Nat.eqb_neq k NR_PRIORITIES)) by lia. simpl.
    rewrite (rq_list_next_head Wk).
    destruct (L k); [contradiction | reflexivity].
Qed.

Lemma order_threads s r L x :
  rq_wf s r L -> In x (order L) -> is_thread x = true.
Proof.
  intros W Hin. apply in_flat_map in Hin. destruct Hin as (p & Hp & Hx).
  apply in_seq in Hp. destruct (W p) as [Wp _]; [lia|].
  now apply (members Wp).
Qed.

Lemma drain_wf fuel : forall s r L,
  rq_wf s r L -> length (order L) <= fuel -> drain fuel r s = order L.
Proof.
  induction fuel as [|fuel IH]; intros s r L W Hlen.
  - destruct (order L); [reflexivity | simpl in Hlen; lia].
  - simpl. rewrite (pick_next_task_wf W).
    destruct (rq_wf_first NR_PRIORITY_BITMAPS W) as (Hlow & [E|[Hk Hne]]).
    + rewrite order_nil; [reflexivity|]. now rewrite <- E.
    + set (k := find_first_bit (bitmap s r) NR_PRIORITY_BITMAPS) in *.
      destruct (W k Hk) as [Wk _].
      rewrite (order_first L Hk Hlow) in *.
      destruct (L k) as [|x t] eqn:ELk; [contradiction|]. simpl.
      assert (T : is_thread x = true) by (apply (members Wk); now left).
      assert (Px : priority s x = k) by (apply (members Wk); now left).
      destruct x as [| |id]; try discriminate. f_equal.
      set (x := Thread id) in *.
      assert (W1 : rq_wf (final (pick_next_task r s)) r L).
      { rewrite pick_next_task_final. now apply rq_wf_fields with (s := s). }
      assert (Px1 : priority (final (pick_next_task r s)) x = k).
      { now rewrite pick_next_task_final. }
      assert (W2 := @dequeue_rq_queue_wf _ r L x W1).
      rewrite Px1 in W2. specialize (W2 Hk).
      rewrite ELk in W2. specialize (W2 (or_introl eq_refl)).
      assert (Ex : ~ In x t).
      { pose proof (nodup Wk) as ND. now apply NoDup_cons_iff in ND. }
      assert (Ed : order (deq L k x) =
                   t ++ flat_map L (seq (S k) (NR_PRIORITIES - S k))).
      { rewrite (@order_first (deq L k x) k Hk).
        - unfold deq at 1. rewrite Nat.eqb_refl, ELk, remove_cons.
          rewrite notin_remove by exact Ex. f_equal.
          apply flat_map_agree. intros j Hj. apply in_seq in Hj.
          unfold deq. now rewrite (proj2 (Nat.eqb_neq j k)) by lia.
        - intros j Hj. unfold deq.
          rewrite (proj2 (Nat.eqb_neq j k)) by lia. now apply Hlow. }
      rewrite <- Ed. apply IH; [exact W2|].
      rewrite Ed. simpl in Hlen. lia.
Qed.

(** *** Arrival order *)

Lemma run_op_priority r o s : priority (run_op r o s) = priority s.
Proof.
  destruct o; simpl;
    auto using enqueue_rq_queue_priority, enqueue_rq_queue_head_priority,
               dequeue_rq_queue_priority.
Qed.

Lemma run_ops_priority r ops : forall s,
  priority (run_ops r ops s) = priority s.
Proof.
  induction ops as [|o ops IH]; intros s; simpl; [reflexivity|].
  now rewrite IH, run_op_priority.
Qed.

Lemma run_ops_app r ops1 ops2 s :
  run_ops r (ops1 ++ ops2) s = run_ops r ops2 (run_ops r ops1 s).
Proof. revert s. induction ops1; intros s; simpl; auto. Qed.

Lemma abs_ops_app r ops1 ops2 : forall s L,
  abs_ops r s (ops1 ++ ops2) L =
  abs_ops r (run_ops r ops1 s) ops2 (abs_ops r s ops1 L).
Proof. induction ops1; intros s L; simpl; auto. Qed.

Lemma ops_ok_app r ops1 ops2 : forall s L,
  ops_ok r s L (ops1 ++ ops2) <->
  ops_ok r s L ops1 /\
  ops_ok r (run_ops r ops1 s) (abs_ops r s ops1 L) ops2.
Proof.
  induction ops1 as [|o ops1 IH]; intros s L; simpl.
  - tauto.
  - rewrite IH. tauto.
Qed.

(** A queued thread stays queued until it is dequeued. *)
Lemma abs_op_keeps s o L p a :
  In a (L p) -> o <> Dequeue a -> In a (abs_op s o L p).
Proof.
  intros Hin N. destruct o as [th|th|th]; simpl.
  - unfold enq_tail. destruct (Nat.eqb _ _); auto using in_or_app.
  - unfold enq_head. destruct (Nat.eqb _ _); simpl; auto.
  - unfold deq. destruct (Nat.eqb _ _); auto.
    apply in_in_remove; auto. intros ->. now apply N.
Qed.

Lemma abs_ops_keeps r ops a p : forall s L,
  In a (L p) -> ~ In (Dequeue a) ops -> In a (abs_ops r s ops L p).
Proof.
  induction ops as [|o ops IH]; intros s L Hin N; simpl; [exact Hin|].
  apply IH.
  - apply abs_op_keeps; auto. intros ->. apply N. now left.
  - intros H. apply N. now right.
Qed.

(** C3.  [A] is enqueued at the tail, then any operations that do not
    dequeue [A] run, then [B] is enqueued at the tail at the same
    priority.  Picking and dequeueing until the run-queue is empty then
    yields [A] before [B]. *)
Theorem fifo_order s r L A B ops fuel :
  rq_wf s r L ->
  priority s A = priority s B ->
  ops_ok r s L (Enqueue A :: ops ++ [Enqueue B]) ->
  ~ In (Dequeue A) ops ->
  length (order (abs_ops r s (Enqueue A :: ops ++ [Enqueue B]) L)) <= fuel ->
  exists pre mid post,
    drain fuel r (run_ops r (Enqueue A :: ops ++ [Enqueue B]) s) =
    pre ++ A :: mid ++ B :: post.
Proof.
  intros W EP Ok ND Hlen.
  pose proof (run_ops_wf _ W Ok) as W3.
  rewrite (drain_wf W3 Hlen).
  simpl in Ok. destruct Ok as [(TA & HpA & NQA) Ok].
  apply ops_ok_app in Ok. destruct Ok as [Ok1 [(TB & HpB & NQB) _]].
  simpl. rewrite abs_ops_app. simpl.
  set (s1 := final (enqueue_rq_queue r A s)) in *.
  set (L1 := enq_tail L (priority s A) A) in *.
  set (s2 := run_ops r ops s1) in *.
  set (L2 := abs_ops r s1 ops L1) in *.
  assert (EB : priority s2 B = priority s A).
  { unfold s2. now rewrite run_ops_priority. }
  rewrite EB in *.
  assert (HA : In A (L2 (priority s A))).
  { apply abs_ops_keeps; [|exact ND].
    unfold L1, enq_tail. rewrite Nat.eqb_refl.
    apply in_or_app. right. now left. }
  destruct (in_split _ _ HA) as (x & y & E).
  rewrite (@order_split _ (priority s A) HpA).
  unfold enq_tail at 2. rewrite Nat.eqb_refl, E.
  exists (flat_map (enq_tail L2 (priority s A) B) (seq 0 (priority s A)) ++ x),
    y, (flat_map (enq_tail L2 (priority s A) B)
                 (seq (S (priority s A)) (NR_PRIORITIES - S (priority s A)))).
  repeat (rewrite <- app_assoc; simpl). reflexivity.
Qed.

(** C5.  After [A] and [B] are enqueued at the tail of a priority and
    [C] at its head, and no lower-numbered priority has a queued thread,
    [pick_next_task] returns [C], and [C] is ahead of [A] and [B] in
    the run-queue itself: the list of that priority reads [C], the
    earlier threads, [A], [B], and picking and dequeueing until the
    run-queue is empty serves them in this order. *)
Theorem head_enqueue_is_next_pick s r L A B C :
  rq_wf s r L ->
  priority s A = priority s C -> priority s B = priority s C ->
  ops_ok r s L [Enqueue A; Enqueue B; EnqueueHead C] ->
  (forall q, q < priority s C -> L q = []) ->
  let s3 := run_ops r [Enqueue A; Enqueue B; EnqueueHead C] s in
  result (pick_next_task r s3) = C /\
  rq_list s3 r (priority s C) (C :: L (priority s C) ++ [A; B]) /\
  (forall fuel, length (order L) + 3 <= fuel ->
     exists rest, drain fuel r s3 = C :: L (priority s C) ++ A :: B :: rest).
Proof.
  intros W EA EB Ok Hlow s3.
  pose proof (run_ops_wf _ W Ok) as W3. fold s3 in W3.
  destruct Ok as (_ & _ & (_ & HpC & _) & _).
  rewrite run_op_priority in HpC.
  change (priority (run_op r (Enqueue A) s) C) with (priority s C) in HpC.
  change (abs_ops r s [Enqueue A; Enqueue B; EnqueueHead C] L)
    with (enq_head (enq_tail (enq_tail L (priority s A) A) (priority s B) B)
                   (priority s C) C) in W3.
  rewrite EA, EB in W3.
  set (p := priority s C) in *.
  set (L3 := enq_head (enq_tail (enq_tail L p A) p B) p C) in *.
  assert (Ep : L3 p = C :: L p ++ [A; B]).
  { unfold L3, enq_head, enq_tail. rewrite Nat.eqb_refl.
    rewrite <- app_assoc. reflexivity. }
  assert (Eother : forall j, j <> p -> L3 j = L j).
  { intros j Hj. unfold L3, enq_head, enq_tail.
    now rewrite (proj2 (Nat.eqb_neq j p)). }
  assert (Eo : order L3 =
               C :: L p ++ A :: B ::
               flat_map L (seq (S p) (NR_PRIORITIES - S p))).
  { rewrite (@order_first L3 p HpC).
    - rewrite Ep. cbn [app]. f_equal. rewrite <- app_assoc. cbn [app].
      do 3 f_equal. apply flat_map_agree. intros j Hj. apply in_seq in Hj.
      apply Eother. lia.
    - intros j Hj. rewrite Eother by lia. apply Hlow, Hj. }
  split; [|split].
  - rewrite (pick_next_task_wf W3), Eo. reflexivity.
  - rewrite <- Ep. apply (W3 p HpC).
  - intros fuel Hf. eexists.
    rewrite (drain_wf W3); [exact Eo|].
    rewrite Eo. rewrite (@order_first L p HpC Hlow) in Hf.
    cbn [length]. rewrite !length_app in *. cbn [length]. lia.
Qed.

(** *** Enqueue followed by dequeue *)

Lemma setbit_set (b : Z) (n : nat) :
  Z.testbit b (Z.of_nat n) = true -> Z.setbit b (Z.of_nat n) = b.
Proof.
  intros Hb. apply Z.bits_inj'. intros m Hm.
  rewrite Z.setbit_eqb by lia.
  destruct (Z.eqb_spec (Z.of_nat n) m) as [<-|N]; simpl; auto.
Qed.

Lemma clearbit_setbit (b : Z) (n : nat) :
  Z.testbit b (Z.of_nat n) = false ->
  Z.clearbit (Z.setbit b (Z.of_nat n)) (Z.of_nat n) = b.
Proof.
  intros Hb. apply Z.bits_inj'. intros m Hm.
  rewrite Z.clearbit_eqb, Z.setbit_eqb by lia.
  destruct (Z.eqb_spec (Z.of_nat n) m) as [<-|N]; simpl.
  - now rewrite Hb.
  - apply andb_true_r.
Qed.

Lemma rq_wf_contents s r (L L' : contents) :
  (forall p, L p = L' p) -> rq_wf s r L -> rq_wf s r L'.
Proof. intros E W p Hp. rewrite <- E. now apply W. Qed.

Lemma deq_enq_tail (L : contents) q th p :
  ~ In th (L q) -> deq (enq_tail L q th) q th p = L p.
Proof.
  intros Hth. unfold deq, enq_tail.
  destruct (Nat.eqb_spec p q) as [->|N]; [|reflexivity].
  rewrite remove_app, remove_cons, notin_remove by exact Hth.
  apply app_nil_r.
Qed.

Lemma deq_enq_head (L : contents) q th p :
  ~ In th (L q) -> deq (enq_head L q th) q th p = L p.
Proof.
  intros Hth. unfold deq, enq_head.
  destruct (Nat.eqb_spec p q) as [->|N]; [|reflexivity].
  now rewrite remove_cons, notin_remove.
Qed.

Lemma not_in_neq_last (x a : ptr) (l : list ptr) :
  ~ In x (a :: l) -> x <> last l a.
Proof.
  intros N E. apply N. pose proof (last_in l a) as HL.
  now rewrite <- E in HL.
Qed.

Section RoundTrip.

Variables (s : state) (r : nat) (L : contents) (th : ptr).
Hypothesis W : rq_wf s r L.
Hypothesis T : is_thread th = true.
Hypothesis Hp : priority s th < NR_PRIORITIES.
Hypothesis NQ : ~ queued L th.

Local Abbreviation thp := (priority s th).
Local Abbreviation thH := (Head r (priority s th)).
Local Abbreviation thl := (L (priority s th)).

Lemma rt_list : rq_list s r thp thl.
Proof. exact (proj1 (W Hp)). Qed.

Lemma rt_fresh : ~ In th thl.
Proof. exact (not_queued_priority s Hp NQ). Qed.

Lemma th_not_node : ~ In th (thH :: thl).
Proof.
  intros [E|Hin]; [|now apply rt_fresh]. rewrite <- E in T. discriminate.
Qed.

Lemma th_not_node_rev : ~ In th (thH :: rev thl).
Proof.
  intros [E|Hin]; [rewrite <- E in T; discriminate|].
  apply in_rev in Hin. now apply rt_fresh.
Qed.

Lemma last_tail : last thl thH = prev s thH.
Proof. exact (eq_sym (rq_list_prev_head rt_list)). Qed.

Lemma enqueue_dequeue_next :
  next (final (dequeue_rq_queue r th (final (enqueue_rq_queue r th s)))) =
  upd (upd (upd (next s) (prev s thH) th) th thH) (prev s thH) thH.
Proof.
  pose proof (enqueue_rq_queue_list th rt_list T rt_fresh) as We.
  rewrite dequeue_rq_queue_next.
  rewrite (@dequeue_next_eq _ r th thl [] We).
  rewrite enqueue_rq_queue_next, enqueue_rq_queue_priority.
  rewrite upd_same, last_tail. reflexivity.
Qed.

Lemma enqueue_dequeue_prev :
  prev (final (dequeue_rq_queue r th (final (enqueue_rq_queue r th s)))) =
  upd (upd (upd (prev s) th (prev s thH)) thH th) thH (prev s thH).
Proof.
  pose proof (enqueue_rq_queue_list th rt_list T rt_fresh) as We.
  assert (Ht : th <> prev s thH).
  { rewrite <- last_tail. apply not_in_neq_last, th_not_node. }
  assert (Hh : th <> thH) by (intros E; apply th_not_node; now left).
  rewrite dequeue_rq_queue_prev.
  rewrite (@dequeue_next_eq _ r th thl [] We).
  rewrite enqueue_rq_queue_next, enqueue_rq_queue_prev.
  rewrite enqueue_rq_queue_priority.
  rewrite last_tail.
  rewrite (upd_other _ _ Ht), upd_same.
  now rewrite (upd_other _ _ Hh), upd_same.
Qed.

Lemma enqueue_head_dequeue_next :
  next (final (dequeue_rq_queue r th (final (enqueue_rq_queue_head r th s)))) =
  upd (upd (upd (next s) th (next s thH)) thH th) thH (next s thH).
Proof.
  pose proof (enqueue_rq_queue_head_list th rt_list T rt_fresh) as We.
  assert (Hh : th <> thH) by (intros E; apply th_not_node; now left).
  rewrite dequeue_rq_queue_next.
  rewrite (@dequeue_next_eq _ r th [] thl We).
  rewrite enqueue_rq_queue_head_next, enqueue_rq_queue_head_priority.
  simpl last.
  now rewrite (upd_other _ _ Hh), upd_same.
Qed.

Lemma enqueue_head_dequeue_prev :
  prev (final (dequeue_rq_queue r th (final (enqueue_rq_queue_head r th s)))) =
  upd (upd (upd (prev s) (next s thH) th) th thH) (next s thH) thH.
Proof.
  pose proof (enqueue_rq_queue_head_list th rt_list T rt_fresh) as We.
  assert (Hh : th <> thH) by (intros E; apply th_not_node; now left).
  rewrite dequeue_rq_queue_prev.
  rewrite (@dequeue_next_eq _ r th [] thl We).
  rewrite enqueue_rq_queue_head_next, enqueue_rq_queue_head_prev.
  rewrite enqueue_rq_queue_head_priority. simpl last.
  rewrite (upd_other _ _ Hh), (upd_other _ _ Hh), !upd_same.
  reflexivity.
Qed.

Lemma th_not_head : th <> thH.
Proof. intros E. apply th_not_node. now left. Qed.

Lemma th_not_tail : th <> prev s thH.
Proof. rewrite <- last_tail. apply not_in_neq_last, th_not_node. Qed.

Lemma first_node : next s thH = last (rev thl) thH.
Proof. exact (eq_trans (rq_list_next_head rt_list) (hd_last_rev thl thH)). Qed.

Lemma th_not_first : th <> next s thH.
Proof. rewrite first_node. apply not_in_neq_last, th_not_node_rev. Qed.

Lemma round_trip_others x :
  x <> th ->
  next (final (dequeue_rq_queue r th (final (enqueue_rq_queue r th s)))) x =
    next s x /\
  prev (final (dequeue_rq_queue r th (final (enqueue_rq_queue r th s)))) x =
    prev s x /\
  next (final (dequeue_rq_queue r th (final (enqueue_rq_queue_head r th s)))) x =
    next s x /\
  prev (final (dequeue_rq_queue r th (final (enqueue_rq_queue_head r th s)))) x =
    prev s x.
Proof.
  intros Hx.
  rewrite enqueue_dequeue_next, enqueue_dequeue_prev,
    enqueue_head_dequeue_next, enqueue_head_dequeue_prev.
  repeat split.
  - destruct (ptr_eq_dec x (prev s thH)) as [->|N].
    + rewrite upd_same, <- last_tail. symmetry.
      apply (chain_last _ _ _ _ (fwd rt_list)).
    + now rewrite !upd_other.
  - destruct (ptr_eq_dec x thH) as [->|N].
    + now rewrite upd_same.
    + now rewrite !upd_other.
  - destruct (ptr_eq_dec x thH) as [->|N].
    + now rewrite upd_same.
    + now rewrite !upd_other.
  - destruct (ptr_eq_dec x (next s thH)) as [->|N].
    + rewrite upd_same, first_node. symmetry.
      apply (chain_last _ _ _ _ (bwd rt_list)).
    + now rewrite !upd_other.
Qed.

Lemma round_trip_self :
  next (final (dequeue_rq_queue r th (final (enqueue_rq_queue r th s)))) th =
    thH /\
  prev (final (dequeue_rq_queue r th (final (enqueue_rq_queue r th s)))) th =
    prev s thH /\
  next (final (dequeue_rq_queue r th (final (enqueue_rq_queue_head r th s)))) th =
    next s thH /\
  prev (final (dequeue_rq_queue r th (final (enqueue_rq_queue_head r th s)))) th =
    thH.
Proof.
  rewrite enqueue_dequeue_next, enqueue_dequeue_prev,
    enqueue_head_dequeue_next, enqueue_head_dequeue_prev.
  repeat split.
  - now rewrite (upd_other _ _ th_not_tail), upd_same.
  - now rewrite !(upd_other _ _ th_not_head), upd_same.
  - now rewrite !(upd_other _ _ th_not_head), upd_same.
  - now rewrite (upd_other _ _ th_not_first), upd_same.
Qed.

Lemma round_trip_wf :
  rq_wf (final (dequeue_rq_queue r th (final (enqueue_rq_queue r th s)))) r L /\
  rq_wf (final (dequeue_rq_queue r th (final (enqueue_rq_queue_head r th s))))
        r L.
Proof.
  split.
  - apply rq_wf_contents with (L := deq (enq_tail L thp th) thp th).
    + intros q. apply deq_enq_tail, rt_fresh.
    + apply (@dequeue_rq_queue_wf (final (enqueue_rq_queue r th s)) r
               (enq_tail L thp th) th).
      * apply enqueue_rq_queue_wf; auto using rt_fresh.
      * exact Hp.
      * unfold enq_tail. rewrite enqueue_rq_queue_priority.
        rewrite Nat.eqb_refl. apply in_or_app. right. now left.
  - apply rq_wf_contents with (L := deq (enq_head L thp th) thp th).
    + intros q. apply deq_enq_head, rt_fresh.
    + apply (@dequeue_rq_queue_wf (final (enqueue_rq_queue_head r th s)) r
               (enq_head L thp th) th).
      * apply enqueue_rq_queue_head_wf; auto using rt_fresh.
      * exact Hp.
      * unfold enq_head. rewrite enqueue_rq_queue_head_priority.
        rewrite Nat.eqb_refl. now left.
Qed.

Lemma round_trip_bitmap c :
  bitmap (final (dequeue_rq_queue r th (final (enqueue_rq_queue r th s)))) c =
    bitmap s c /\
  bitmap (final (dequeue_rq_queue r th (final (enqueue_rq_queue_head r th s)))) c =
    bitmap s c.
Proof.
  assert (Hb : forall b : Z,
             (if list_empty s r thp
              then updn (updn (bitmap s) r b) r (Z.clearbit b (Z.of_nat thp))
              else updn (bitmap s) r b) c =
             if Nat.eqb c r
             then (if list_empty s r thp then Z.clearbit b (Z.of_nat thp) else b)
             else bitmap s c).
  { intros b. unfold updn. destruct (list_empty s r thp), (Nat.eqb c r); auto. }
  assert (Hs : (if Nat.eqb c r
                then (if list_empty s r thp
                      then Z.clearbit (Z.setbit (bitmap s r) (Z.of_nat thp))
                                      (Z.of_nat thp)
                      else Z.setbit (bitmap s r) (Z.of_nat thp))
                else bitmap s c) = bitmap s c).
  { destruct (Nat.eqb c r) eqn:Ec; [|reflexivity].
    apply Nat.eqb_eq in Ec. rewrite Ec.
    pose proof (proj2 (W Hp)) as B. unfold bit in B.
    destruct (list_empty s r thp); simpl in B.
    - now apply clearbit_setbit.
    - now apply setbit_set. }
  assert (HH : thH <> th) by (intros E; now apply th_not_head).
  split.
  - rewrite dequeue_rq_queue_bitmap, <- dequeue_rq_queue_next.
    rewrite enqueue_rq_queue_priority.
    rewrite (proj1 (round_trip_others HH)).
    fold (list_empty s r thp). rewrite enqueue_rq_queue_bitmap.
    rewrite updn_same, Hb. exact Hs.
  - rewrite dequeue_rq_queue_bitmap, <- dequeue_rq_queue_next.
    rewrite enqueue_rq_queue_head_priority.
    rewrite (proj1 (proj2 (proj2 (round_trip_others HH)))).
    fold (list_empty s r thp). rewrite enqueue_rq_queue_head_bitmap.
    rewrite updn_same, Hb. exact Hs.
Qed.

End RoundTrip.

(** C4, as it holds of the code.  Enqueueing a fresh thread, at the
    tail or at the head, and dequeueing it again restores the [next]
    and [prev] links of every other node, every bitmap and hence the
    well-formed run-queue with the same contents.  The thread's own
    links are left as the enqueue set them: they keep pointing into the
    list (to the head and to its former neighbour), not to the thread
    itself. *)
Theorem enqueue_dequeue_round_trip s r L th :
  rq_wf s r L -> is_thread th = true ->
  priority s th < NR_PRIORITIES -> ~ queued L th ->
  let H := Head r (priority s th) in
  let s1 := final (dequeue_rq_queue r th (final (enqueue_rq_queue r th s))) in
  let s2 :=
    final (dequeue_rq_queue r th (final (enqueue_rq_queue_head r th s))) in
  (forall x, x <> th ->
     next s1 x = next s x /\ prev s1 x = prev s x /\
     next s2 x = next s x /\ prev s2 x = prev s x) /\
  (forall c, bitmap s1 c = bitmap s c /\ bitmap s2 c = bitmap s c) /\
  (priority s1 = priority s /\ priority s2 = priority s) /\
  (bindex s1 = bindex s /\ bindex s2 = bindex s) /\
  (rq_wf s1 r L /\ rq_wf s2 r L) /\
  (next s1 th = H /\ prev s1 th = prev s H /\
   next s2 th = next s H /\ prev s2 th = H) /\
  (H <> th /\ prev s H <> th /\ next s H <> th).
Proof.
  intros W T Hp NQ H s1 s2. repeat apply conj.
  - intros x Hx. now apply (round_trip_others W T Hp NQ).
  - intros c. now apply (round_trip_bitmap W T Hp NQ).
  - unfold s1. now rewrite dequeue_rq_queue_priority.
  - unfold s2. now rewrite dequeue_rq_queue_priority.
  - unfold s1. now rewrite dequeue_rq_queue_bindex.
  - unfold s2. now rewrite dequeue_rq_queue_bindex.
  - now apply (round_trip_wf W T Hp NQ).
  - now apply (round_trip_wf W T Hp NQ).
  - now apply (round_trip_self W T Hp NQ).
  - now apply (round_trip_self W T Hp NQ).
  - now apply (round_trip_self W T Hp NQ).
  - now apply (round_trip_self W T Hp NQ).
  - apply not_eq_sym. eapply th_not_head; eauto.
  - apply not_eq_sym. eapply th_not_tail; eauto.
  - apply not_eq_sym. eapply th_not_first; eauto.
Qed.

(** *** Absence of checks *)

(** C7, as it holds of the code.  The three queue operations test
    nothing about the thread they are handed.  For a thread descriptor
    with a priority in range, on every state, whether the thread is
    queued or not: when the list's tail (first node) is not [NULL], a
    tail (head) enqueue stores the thread as the new tail (first node)
    and links it to the list head, and re-enqueueing the thread that
    already is the tail (the first node) leaves it with [prev] ([next])
    pointing to itself; dequeueing a self-linked thread that is not
    first in the list of its priority changes no link. *)
Theorem queue_operations_unchecked r th s :
  is_thread th = true -> priority s th < NR_PRIORITIES ->
  let H := Head r (priority s th) in
  (prev s H <> NULL ->
   prev (final (enqueue_rq_queue r th s)) H = th /\
   next (final (enqueue_rq_queue r th s)) th = H /\
   (prev s H = th -> prev (final (enqueue_rq_queue r th s)) th = th)) /\
  (next s H <> NULL ->
   next (final (enqueue_rq_queue_head r th s)) H = th /\
   prev (final (enqueue_rq_queue_head r th s)) th = H /\
   (next s H = th -> next (final (enqueue_rq_queue_head r th s)) th = th)) /\
  (next s H <> th -> next s th = th -> prev s th = th ->
   forall x, next (final (dequeue_rq_queue r th s)) x = next s x /\
             prev (final (dequeue_rq_queue r th s)) x = prev s x).
Proof.
  intros _ _ H.
  rewrite enqueue_rq_queue_next, enqueue_rq_queue_prev,
    enqueue_rq_queue_head_next, enqueue_rq_queue_head_prev.
  fold H. split; [|split].
  - intros _. split; [apply upd_same|]. split; [apply upd_same|].
    intros E. rewrite E. unfold upd.
    destruct (ptr_eqb th H); [reflexivity|]. now rewrite ptr_eqb_refl.
  - intros _. split; [apply upd_same|]. split; [apply upd_same|].
    intros E. rewrite E. unfold upd.
    destruct (ptr_eqb th H); [reflexivity|]. now rewrite ptr_eqb_refl.
  - intros N En Ep x.
    rewrite dequeue_rq_queue_next, dequeue_rq_queue_prev.
    unfold dequeue_next. fold H.
    rewrite (proj2 (ptr_eqb_neq _ _) N), En, Ep, upd_same.
    split.
    + destruct (ptr_eq_dec x th) as [->|Nx];
        [now rewrite upd_same | now rewrite upd_other].
    + destruct (ptr_eq_dec x th) as [->|Nx];
        [now rewrite upd_same | now rewrite upd_other].
Qed.

(** *** Indexing *)

(** C10.  Both enqueue operations index [rq->array] and the bitmap
    with [th->priority] and nothing else, unchecked: all their accesses
    are in bounds when [th->priority < NR_PRIORITIES], and all of them
    are out of bounds otherwise, in which case the call still returns,
    having stored [th] through the out-of-range element. *)
Theorem enqueue_indexes_by_priority r th s :
  let p := priority s th in
  accesses (enqueue_rq_queue r th s) =
    [BitAt r p; ArrayAt r p; ArrayAt r p; ArrayAt r p; ArrayAt r p] /\
  accesses (enqueue_rq_queue_head r th s) =
    [BitAt r p; ArrayAt r p; ArrayAt r p; ArrayAt r p; ArrayAt r p] /\
  forallb in_bounds (accesses (enqueue_rq_queue r th s)) =
    Nat.ltb p NR_PRIORITIES /\
  existsb in_bounds (accesses (enqueue_rq_queue r th s)) =
    Nat.ltb p NR_PRIORITIES /\
  forallb in_bounds (accesses (enqueue_rq_queue_head r th s)) =
    Nat.ltb p NR_PRIORITIES /\
  existsb in_bounds (accesses (enqueue_rq_queue_head r th s)) =
    Nat.ltb p NR_PRIORITIES /\
  call (enqueue_rq_queue r th) s <> Panicked /\
  call (enqueue_rq_queue_head r th) s <> Panicked /\
  prev (final (enqueue_rq_queue r th s)) (Head r p) = th /\
  next (final (enqueue_rq_queue_head r th s)) (Head r p) = th /\
  bit (final (enqueue_rq_queue r th s)) r p = true /\
  bit (final (enqueue_rq_queue_head r th s)) r p = true.
Proof.
  intros p.
  assert (E1 : accesses (enqueue_rq_queue r th s) =
               [BitAt r p; ArrayAt r p; ArrayAt r p; ArrayAt r p; ArrayAt r p])
    by reflexivity.
  assert (E2 : accesses (enqueue_rq_queue_head r th s) =
               [BitAt r p; ArrayAt r p; ArrayAt r p; ArrayAt r p; ArrayAt r p])
    by reflexivity.
  rewrite E1, E2. unfold bit.
  rewrite enqueue_rq_queue_prev, enqueue_rq_queue_head_next,
    enqueue_rq_queue_bitmap, enqueue_rq_queue_head_bitmap.
  fold p. cbn [forallb existsb]. unfold in_bounds. cbn [access_index].
  destruct (Nat.ltb p NR_PRIORITIES);
    repeat split; try discriminate; auto using upd_same, bit_set_same.
Qed.

(** *** Initialisation *)

Lemma final_bind {A B} (c : M A) (k : A -> M B) s :
  final (bind c k s) = final (k (result (c s)) (final (c s))).
Proof.
  unfold bind, final, result.
  destruct (c s) as [[a s1] l1]. simpl.
  destruct (k a s1) as [[b s2] l2]. reflexivity.
Qed.

Lemma init_rq_loop_step cpu i n s :
  final (init_rq_loop cpu i (S n) s) =
  final (init_rq_loop cpu (S i) n
           (State (upd (next s) (Head cpu i) (Head cpu i))
                  (upd (prev s) (Head cpu i) (Head cpu i))
                  (priority s) (bitmap s) (bindex s))).
Proof. cbn [init_rq_loop]. rewrite final_bind. reflexivity. Qed.

Lemma init_rq_loop_spec cpu n : forall i s,
  (forall j, i <= j < i + n ->
     next (final (init_rq_loop cpu i n s)) (Head cpu j) = Head cpu j /\
     prev (final (init_rq_loop cpu i n s)) (Head cpu j) = Head cpu j) /\
  (forall x, (forall j, i <= j < i + n -> x <> Head cpu j) ->
     next (final (init_rq_loop cpu i n s)) x = next s x /\
     prev (final (init_rq_loop cpu i n s)) x = prev s x) /\
  priority (final (init_rq_loop cpu i n s)) = priority s /\
  bitmap (final (init_rq_loop cpu i n s)) = bitmap s /\
  bindex (final (init_rq_loop cpu i n s)) = bindex s.
Proof.
  induction n as [|n IH]; intros i s.
  - simpl. repeat split; intros; lia.
  - rewrite init_rq_loop_step.
    set (s1 := State _ _ _ _ _).
    destruct (IH (S i) s1) as (Hin & Hout & Hpr & Hbm & Hbi).
    repeat apply conj;
      [| | now rewrite Hpr | now rewrite Hbm | now rewrite Hbi].
    + intros j Hj. destruct (Nat.eq_dec j i) as [->|N].
      * destruct (Hout (Head cpu i)) as [E1 E2].
        { intros j Hj' E. injection E as E. lia. }
        rewrite E1, E2. unfold s1. simpl. split; apply upd_same.
      * apply Hin. lia.
    + intros x Hx. destruct (Hout x) as [E1 E2].
      { intros j Hj. apply Hx. lia. }
      rewrite E1, E2. unfold s1. simpl.
      split; apply upd_other; apply Hx; lia.
Qed.

(** C8, as it holds of the code.  After [init_rq] every list head of
    the calling CPU's run-queue has [next] and [prev] pointing to
    itself.  [init_rq] does not write the bitmap: it is as it was before
    the call, so the run-queue is well-formed and empty when the bitmap
    was zero beforehand. *)
Theorem init_rq_spec cpu s :
  (forall p, p < NR_PRIORITIES ->
     next (final (init_rq cpu s)) (Head cpu p) = Head cpu p /\
     prev (final (init_rq cpu s)) (Head cpu p) = Head cpu p) /\
  bitmap (final (init_rq cpu s)) = bitmap s /\
  (bitmap s cpu = 0%Z -> rq_wf (final (init_rq cpu s)) cpu no_threads).
Proof.
  unfold init_rq.
  destruct (init_rq_loop_spec cpu NR_PRIORITIES 0 s)
    as (Hin & _ & _ & Hbm & _).
  split; [|split].
  - intros p Hp. apply Hin. lia.
  - exact Hbm.
  - intros Hz p Hp. destruct (Hin p) as [En Ep]; [lia|].
    split.
    + constructor; simpl; auto using NoDup_nil. intros x [].
    + unfold bit, list_empty. rewrite Hbm, Hz, En, ptr_eqb_refl.
      apply Z.testbit_0_l.
Qed.

(** *** Further properties of the queue operations *)

(** X5.  The pointer code implements a queue per priority: from a
    well-formed run-queue, after any sequence of operations whose
    preconditions hold, the run-queue is well-formed and its lists hold
    exactly the contents obtained by appending at a tail enqueue,
    prepending at a head enqueue and removing at a dequeue; no
    operation changes a priority. *)
Theorem queue_operations_refine_contents s r L ops :
  rq_wf s r L -> ops_ok r s L ops ->
  rq_wf (run_ops r ops s) r (abs_ops r s ops L) /\
  priority (run_ops r ops s) = priority s.
Proof.
  intros W Ok. split; [now apply run_ops_wf | apply run_ops_priority].
Qed.

(** X6.  On a well-formed run-queue [pick_next_task] returns [NULL]
    exactly when no thread is queued; otherwise it returns the first
    thread of its own priority list, and no queued thread has a
    lower-numbered priority. *)
Theorem pick_next_task_most_urgent s r L :
  rq_wf s r L ->
  (result (pick_next_task r s) = NULL <->
   forall p, p < NR_PRIORITIES -> L p = []) /\
  (result (pick_next_task r s) <> NULL ->
   priority s (result (pick_next_task r s)) < NR_PRIORITIES /\
   hd NULL (L (priority s (result (pick_next_task r s)))) =
     result (pick_next_task r s) /\
   forall x, queued L x ->
     priority s (result (pick_next_task r s)) <= priority s x).
Proof.
  intros W. rewrite (pick_next_task_wf W).
  destruct (rq_wf_first NR_PRIORITY_BITMAPS W) as (Hlow & [E|[Hk Hne]]).
  - assert (Hall : forall p, p < NR_PRIORITIES -> L p = []).
    { intros p Hp. apply Hlow. now rewrite E. }
    rewrite (order_nil _ Hall). simpl. split; [tauto|]. now intros [].
  - set (k := find_first_bit (bitmap s r) NR_PRIORITY_BITMAPS) in *.
    rewrite (order_first L Hk Hlow).
    destruct (W k Hk) as [Wk _].
    destruct (L k) as [|x t] eqn:ELk; [contradiction|]. simpl.
    destruct (members Wk x (or_introl eq_refl)) as [Tx Px].
    assert (Nx : x <> NULL) by (intros ->; discriminate).
    split.
    + split; [contradiction|]. intros Hall.
      rewrite (Hall k Hk) in ELk. discriminate.
    + intros _. rewrite Px. split; [exact Hk|]. split.
      * now rewrite ELk.
      * intros y (p & Hp & Hy). destruct (W p Hp) as [Wp _].
        destruct (members Wp y Hy) as [_ ->].
        destruct (Nat.lt_ge_cases p k) as [Hlt|Hge]; [|exact Hge].
        rewrite (Hlow p Hlt) in Hy. destruct Hy.
Qed.

(** X7.  Round-robin rotation: dequeueing a queued thread and
    enqueueing it again at the tail leaves the run-queue well-formed,
    with the thread moved behind the other threads of its priority,
    whose order is kept; the other priorities are as before. *)
Theorem dequeue_enqueue_rotates s r L th :
  rq_wf s r L -> queued L th ->
  rq_wf (final (enqueue_rq_queue r th (final (dequeue_rq_queue r th s)))) r
        (fun p => if Nat.eqb p (priority s th)
                  then remove ptr_eq_dec th (L p) ++ [th]
                  else L p).
Proof.
  intros W Q. destruct (queued_priority W Q) as [Hp Hin].
  destruct (W _ Hp) as [Wq _].
  pose proof (dequeue_rq_queue_wf th W Hp Hin) as W1.
  assert (T : is_thread th = true) by now apply (members Wq).
  assert (Hfresh : ~ In th (deq L (priority s th) th (priority s th))).
  { unfold deq. rewrite Nat.eqb_refl. apply remove_In. }
  pose proof (@enqueue_rq_queue_wf (final (dequeue_rq_queue r th s)) r
                (deq L (priority s th) th) th W1 T) as W2.
  rewrite dequeue_rq_queue_priority in W2. specialize (W2 Hp Hfresh).
  eapply rq_wf_contents; [|exact W2].
  intros p. unfold enq_tail, deq.
  destruct (Nat.eqb p (priority s th)); reflexivity.
Qed.

Lemma order_NoDup s r L : rq_wf s r L -> NoDup (order L).
Proof.
  intros W. unfold order.
  assert (Hgen : forall n i, i + n <= NR_PRIORITIES ->
                 NoDup (flat_map L (seq i n)) /\
                 forall x, In x (flat_map L (seq i n)) -> i <= priority s x).
  { induction n as [|n IH]; intros i Hi; simpl.
    - split; [constructor | intros x []].
    - destruct (IH (S i)) as [ND Hge]; [lia|].
      destruct (W i) as [Wi _]; [lia|]. split.
      + apply NoDup_app; [apply Wi | exact ND |].
        intros x Hx Hx'. apply Hge in Hx'.
        destruct (members Wi x Hx) as [_ Px]. lia.
      + intros x Hx. apply in_app_or in Hx. destruct Hx as [Hx|Hx].
        * destruct (members Wi x Hx) as [_ Px]. lia.
        * apply Hge in Hx. lia. }
  apply (Hgen NR_PRIORITIES 0). lia.
Qed.

Lemma StronglySorted_app {A} (R : A -> A -> Prop) (l1 l2 : list A) :
  StronglySorted R l1 -> StronglySorted R l2 ->
  (forall x y, In x l1 -> In y l2 -> R x y) ->
  StronglySorted R (l1 ++ l2).
Proof.
  induction l1 as [|a l1 IH]; intros S1 S2 H12; simpl; [exact S2|].
  apply StronglySorted_inv in S1. destruct S1 as [S1 Fa].
  constructor.
  - apply IH; auto. intros x y Hx Hy. apply H12; [now right | exact Hy].
  - apply Forall_app. split; [exact Fa|].
    apply Forall_forall. intros y Hy. apply H12; [now left | exact Hy].
Qed.

Lemma same_priority_sorted s p (l : list ptr) :
  (forall x, In x l -> priority s x = p) ->
  StronglySorted (fun a b => priority s a <= priority s b) l.
Proof.
  induction l as [|a l IH]; intros E; constructor.
  - apply IH. intros x Hx. apply E. now right.
  - apply Forall_forall. intros y Hy.
    rewrite (E a), (E y); auto; [now right | now left].
Qed.

Lemma order_sorted s r L :
  rq_wf s r L ->
  StronglySorted (fun a b => priority s a <= priority s b) (order L).
Proof.
  intros W. unfold order.
  assert (Hgen : forall n i, i + n <= NR_PRIORITIES ->
            StronglySorted (fun a b => priority s a <= priority s b)
                           (flat_map L (seq i n)) /\
            forall x, In x (flat_map L (seq i n)) -> i <= priority s x).
  { induction n as [|n IH]; intros i Hi; simpl.
    - split; [constructor | intros x []].
    - destruct (IH (S i)) as [SS Hge]; [lia|].
      destruct (W i) as [Wi _]; [lia|]. split.
      + apply StronglySorted_app; [|exact SS|].
        * apply same_priority_sorted with (p := i).
          intros x Hx. now apply (members Wi).
        * intros x y Hx Hy. apply Hge in Hy.
          destruct (members Wi x Hx) as [_ Px]. lia.
      + intros x Hx. apply in_app_or in Hx. destruct Hx as [Hx|Hx].
        * destruct (members Wi x Hx) as [_ Px]. lia.
        * apply Hge in Hx. lia. }
  apply (Hgen NR_PRIORITIES 0). lia.
Qed.

Lemma order_queued (L : contents) x : In x (order L) <-> queued L x.
Proof.
  unfold order, queued. rewrite in_flat_map. split.
  - intros (p & Hp & Hx). apply in_seq in Hp. exists p. split; [lia|exact Hx].
  - intros (p & Hp & Hx). exists p. split; [apply in_seq; lia | exact Hx].
Qed.

(** X8.  Picking and dequeueing until the run-queue is empty serves
    every queued thread exactly once, in the order of the lists
    ([order]), hence by non-decreasing priority number. *)
Theorem drain_serves_each_thread_once s r L fuel :
  rq_wf s r L -> length (order L) <= fuel ->
  drain fuel r s = order L /\
  NoDup (drain fuel r s) /\
  (forall x, In x (drain fuel r s) <-> queued L x) /\
  StronglySorted (fun a b => priority s a <= priority s b) (drain fuel r s).
Proof.
  intros W Hlen. rewrite (drain_wf W Hlen).
  split; [reflexivity|]. split; [now apply (order_NoDup W)|].
  split; [apply order_queued | now apply order_sorted with (r := r)].
Qed.

(** *** Independence of the run-queues *)

(** An operation on a consistent list writes no node outside the list
    and the thread it is applied to. *)
Lemma enqueue_rq_queue_untouched s r th lq x :
  rq_list s r (priority s th) lq ->
  x <> th -> ~ In x (Head r (priority s th) :: lq) ->
  next (final (enqueue_rq_queue r th s)) x = next s x /\
  prev (final (enqueue_rq_queue r th s)) x = prev s x.
Proof.
  intros Wq Nth Nin.
  assert (Hh : x <> Head r (priority s th)) by (intros E; apply Nin; now left).
  assert (Ht : x <> prev s (Head r (priority s th))).
  { rewrite (rq_list_prev_head Wq). intros E. apply Nin.
    rewrite E. apply last_in. }
  rewrite enqueue_rq_queue_next, enqueue_rq_queue_prev.
  now rewrite !upd_other.
Qed.

Lemma enqueue_rq_queue_head_untouched s r th lq x :
  rq_list s r (priority s th) lq ->
  x <> th -> ~ In x (Head r (priority s th) :: lq) ->
  next (final (enqueue_rq_queue_head r th s)) x = next s x /\
  prev (final (enqueue_rq_queue_head r th s)) x = prev s x.
Proof.
  intros Wq Nth Nin.
  assert (Hh : x <> Head r (priority s th)) by (intros E; apply Nin; now left).
  assert (Ht : x <> next s (Head r (priority s th))).
  { rewrite (rq_list_next_head Wq). intros E. apply Nin. rewrite E.
    destruct lq; simpl; auto. }
  rewrite enqueue_rq_queue_head_next, enqueue_rq_queue_head_prev.
  now rewrite !upd_other.
Qed.

Lemma dequeue_rq_queue_untouched s r th l1 l2 x :
  rq_list s r (priority s th) (l1 ++ th :: l2) ->
  ~ In x (Head r (priority s th) :: l1 ++ th :: l2) ->
  next (final (dequeue_rq_queue r th s)) x = next s x /\
  prev (final (dequeue_rq_queue r th s)) x = prev s x.
Proof.
  intros Wq Nin.
  assert (Hl : x <> last l1 (Head r (priority s th))).
  { intros E. apply Nin. rewrite app_comm_cons. apply in_or_app. left.
    rewrite E. apply last_in. }
  assert (Hth : th <> last l1 (Head r (priority s th))).
  { intros E. pose proof (rq_list_nodup Wq) as ND.
    rewrite app_comm_cons in ND.
    apply (NoDup_app_disjoint _ _ th ND); [|now left].
    pose proof (last_in l1 (Head r (priority s th))) as HL.
    now rewrite <- E in HL. }
  rewrite dequeue_rq_queue_next, dequeue_rq_queue_prev,
    (dequeue_next_eq _ _ _ Wq).
  split; [now apply upd_other|].
  apply upd_other. rewrite (upd_other _ _ Hth).
  pose proof (fwd Wq) as F. apply chain_app in F. destruct F as [_ F].
  rewrite (chain_first _ _ _ _ F). intros E. apply Nin. rewrite E.
  destruct l2 as [|y l2]; simpl; [now left|].
  right. apply in_or_app. right. right. now left.
Qed.

Lemma rq_wf_untouched s s' r' L' :
  rq_wf s r' L' ->
  priority s' = priority s -> bitmap s' r' = bitmap s r' ->
  (forall p x, p < NR_PRIORITIES -> In x (Head r' p :: L' p) ->
               next s' x = next s x /\ prev s' x = prev s x) ->
  rq_wf s' r' L'.
Proof.
  intros W EP EB F p Hp. destruct (W p Hp) as [Wp Bp]. split.
  - constructor.
    + apply chain_frame with (f := next s); [|apply Wp].
      intros x Hx. now apply (F p).
    + apply chain_frame with (f := prev s); [|apply Wp].
      intros x Hx. apply (F p); auto.
      destruct Hx as [<-|Hx]; [now left | right; now apply in_rev].
    + apply Wp.
    + intros x Hx. rewrite EP. now apply (members Wp).
  - unfold bit, list_empty in *. rewrite EB.
    destruct (F p (Head r' p) Hp (or_introl eq_refl)) as [-> _]. exact Bp.
Qed.

(** X9.  The run-queues are independent: an operation on run-queue [r]
    whose preconditions hold leaves any other well-formed run-queue
    [r'] well-formed with the same contents, provided the two share no
    thread and the thread operated on is not queued on [r']. *)
Theorem run_op_leaves_other_rq s r r' L L' o :
  rq_wf s r L -> rq_wf s r' L' -> r <> r' ->
  (forall x, queued L x -> ~ queued L' x) ->
  op_pre s L o -> ~ queued L' (op_thread o) ->
  rq_wf (run_op r o s) r' L'.
Proof.
  intros W W' Nr Disj Pre NQ'.
  assert (Hnode : forall th lq p x,
             rq_list s r (priority s th) lq ->
             (forall y, In y lq -> queued L y) ->
             p < NR_PRIORITIES -> In x (Head r' p :: L' p) ->
             ~ In x (Head r (priority s th) :: lq)).
  { intros th lq p x Wq Hq Hp Hx [E|Hin].
    - subst x. destruct Hx as [E|Hx].
      + injection E as E _. now apply Nr.
      + destruct (W' p Hp) as [Wp _].
        eapply rq_list_head_notin; eauto.
    - destruct Hx as [<-|Hx].
      + eapply rq_list_head_notin; eauto.
      + apply (Disj x (Hq x Hin)). now exists p. }
  assert (Hth : forall p x, p < NR_PRIORITIES -> In x (Head r' p :: L' p) ->
                            is_thread (op_thread o) = true ->
                            x <> op_thread o).
  { intros p x Hp [<-|Hx] T E.
    - rewrite <- E in T. discriminate.
    - apply NQ'. exists p. subst x. now split. }
  destruct o as [th|th|th]; simpl in *.
  - destruct Pre as (T & Hp & NQ). destruct (W _ Hp) as [Wq _].
    apply rq_wf_untouched with (s := s); auto.
    + rewrite enqueue_rq_queue_bitmap. apply updn_other. auto.
    + intros p x Hpp Hx. apply enqueue_rq_queue_untouched with (lq := L (priority s th));
        eauto.
      eapply Hnode; eauto. intros y Hy. now exists (priority s th).
  - destruct Pre as (T & Hp & NQ). destruct (W _ Hp) as [Wq _].
    apply rq_wf_untouched with (s := s); auto.
    + rewrite enqueue_rq_queue_head_bitmap. apply updn_other. auto.
    + intros p x Hpp Hx.
      apply enqueue_rq_queue_head_untouched with (lq := L (priority s th));
        eauto.
      eapply Hnode; eauto. intros y Hy. now exists (priority s th).
  - destruct (queued_priority W Pre) as [Hp Hin]. destruct (W _ Hp) as [Wq _].
    destruct (in_split _ _ Hin) as (l1 & l2 & E).
    apply rq_wf_untouched with (s := s); auto.
    + apply dequeue_rq_queue_priority.
    + rewrite dequeue_rq_queue_bitmap.
      destruct (ptr_eqb _ _); [apply updn_other; auto | reflexivity].
    + intros p x Hpp Hx. rewrite E in Wq.
      apply dequeue_rq_queue_untouched with (l1 := l1) (l2 := l2); auto.
      eapply Hnode; eauto. intros y Hy. exists (priority s th).
      split; [exact Hp|]. now rewrite E.
Qed.

(** X10.  [init_rq] writes the list heads of the calling CPU's
    run-queue and nothing else: every other node, every priority and
    [bindex] are as before, so another CPU's well-formed run-queue
    stays well-formed; and running it a second time changes nothing. *)
Theorem init_rq_only_own_heads cpu s :
  (forall x, (forall p, p < NR_PRIORITIES -> x <> Head cpu p) ->
     next (final (init_rq cpu s)) x = next s x /\
     prev (final (init_rq cpu s)) x = prev s x) /\
  priority (final (init_rq cpu s)) = priority s /\
  bindex (final (init_rq cpu s)) = bindex s /\
  (forall r' L', r' <> cpu -> rq_wf s r' L' ->
     rq_wf (final (init_rq cpu s)) r' L') /\
  (forall x,
     next (final (init_rq cpu (final (init_rq cpu s)))) x =
       next (final (init_rq cpu s)) x /\
     prev (final (init_rq cpu (final (init_rq cpu s)))) x =
       prev (final (init_rq cpu s)) x).
Proof.
  unfold init_rq.
  destruct (init_rq_loop_spec cpu NR_PRIORITIES 0 s)
    as (Hin & Hout & Hpr & Hbm & Hbi).
  assert (Hout' : forall x, (forall p, p < NR_PRIORITIES -> x <> Head cpu p) ->
     next (final (init_rq_loop cpu 0 NR_PRIORITIES s)) x = next s x /\
     prev (final (init_rq_loop cpu 0 NR_PRIORITIES s)) x = prev s x).
  { intros x Hx. apply Hout. intros j Hj. apply Hx. lia. }
  split; [exact Hout'|]. split; [exact Hpr|]. split; [exact Hbi|]. split.
  - intros r' L' Nr W'. apply rq_wf_untouched with (s := s); auto.
    + now rewrite Hbm.
    + intros p x Hp Hx. apply Hout'. intros q Hq E. subst x.
      destruct Hx as [E|Hx].
      * injection E as E _. now apply Nr.
      * destruct (W' p Hp) as [Wp _]. eapply rq_list_head_notin; eauto.
  - intros x.
    destruct (init_rq_loop_spec cpu NR_PRIORITIES 0
                (final (init_rq_loop cpu 0 NR_PRIORITIES s)))
      as (Hin2 & Hout2 & _).
    destruct x as [|c i|id].
    + apply Hout2. intros j _. discriminate.
    + destruct (Nat.eq_dec c cpu) as [->|Nc].
      * destruct (Nat.lt_ge_cases i NR_PRIORITIES) as [Hi|Hi].
        -- destruct (Hin i) as [-> ->]; [lia|].
           apply Hin2. lia.
        -- apply Hout2. intros j Hj E. injection E as E. lia.
      * apply Hout2. intros j Hj E. injection E as E _. now apply Nc.
    + apply Hout2. intros j _. discriminate.
Qed.

End O1.

(** *** The four-priority configuration *)

Lemma boot_wf : rq_wf NRP boot 0 no_threads.
Proof.
  intros p Hp. split.
  - constructor; simpl; auto using NoDup_nil. intros x [].
  - unfold bit, list_empty. simpl. rewrite Nat.eqb_refl.
    apply Z.testbit_0_l.
Qed.

(** Decide [~ queued] on concrete contents by inspecting each level. *)
Ltac not_queued :=
  let q := fresh "q" in
  let Hq := fresh "Hq" in
  let Hin := fresh "Hin" in
  intros (q & Hq & Hin);
  do 4 (destruct q as [|q]; [vm_compute in Hin; intuition discriminate|]);
  unfold NRP in Hq; lia.

(** The scenario of section 8: T1 (priority 2), T2 (priority 0) and T3
    (priority 2) are enqueued at the tail in this order; the picks are
    T2, then T1, then T3. *)
Example scenario_service_order :
  drain NRP NRB 3 0 (run_ops 0 [Enqueue T1; Enqueue T2; Enqueue T3] boot) =
  [T2; T1; T3].
Proof. vm_compute. reflexivity. Qed.

Example scenario_first_pick :
  result (pick_next_task NRP NRB 0
            (run_ops 0 [Enqueue T1; Enqueue T2; Enqueue T3] boot)) = T2.
Proof. vm_compute. reflexivity. Qed.

Lemma bitmap_list_consistency_witness :
  (bit (run_ops 0 [Enqueue T1; Enqueue T2; Enqueue T3; Dequeue T2] boot) 0 2
     = true <->
   list_empty (run_ops 0 [Enqueue T1; Enqueue T2; Enqueue T3; Dequeue T2] boot)
              0 2 = false) /\
  (list_empty (run_ops 0 [Enqueue T1; Enqueue T2; Enqueue T3; Dequeue T2] boot)
              0 2 = false <->
   abs_ops 0 boot [Enqueue T1; Enqueue T2; Enqueue T3; Dequeue T2]
           no_threads 2 <> []).
Proof.
  apply (@bitmap_list_consistency NRP boot 0 no_threads
           [Enqueue T1; Enqueue T2; Enqueue T3; Dequeue T2] 2).
  - intros q Hq. apply (boot_wf Hq).
  - intros q Hq. apply (boot_wf Hq).
  - repeat split; try (vm_compute; lia); try not_queued.
    exists 0. split; [unfold NRP; lia | vm_compute; auto].
  - unfold NRP. lia.
Defined.

Lemma fifo_order_witness :
  exists pre mid post,
    drain NRP NRB 3 0
          (run_ops 0 (Enqueue T1 :: [Enqueue T2] ++ [Enqueue T3]) boot) =
    pre ++ T1 :: mid ++ T3 :: post.
Proof.
  apply (@fifo_order NRP NRB boot 0 no_threads T1 T3 [Enqueue T2] 3).
  - exact boot_wf.
  - reflexivity.
  - repeat split; try (vm_compute; lia); not_queued.
  - simpl. intuition discriminate.
  - vm_compute. lia.
Defined.

Lemma head_enqueue_is_next_pick_witness :
  result (pick_next_task NRP NRB 0
            (run_ops 0 [Enqueue T1; Enqueue T3; EnqueueHead T4] boot)) = T4 /\
  rq_list (run_ops 0 [Enqueue T1; Enqueue T3; EnqueueHead T4] boot) 0
          (priority boot T4)
          (T4 :: no_threads (priority boot T4) ++ [T1; T3]) /\
  (forall fuel, length (order NRP no_threads) + 3 <= fuel ->
     exists rest,
       drain NRP NRB fuel 0
             (run_ops 0 [Enqueue T1; Enqueue T3; EnqueueHead T4] boot) =
       T4 :: no_threads (priority boot T4) ++ T1 :: T3 :: rest).
Proof.
  apply (@head_enqueue_is_next_pick NRP NRB boot 0 no_threads T1 T3 T4).
  - exact boot_wf.
  - reflexivity.
  - reflexivity.
  - repeat split; try (vm_compute; lia); not_queued.
  - reflexivity.
Defined.

Lemma enqueue_dequeue_round_trip_witness :
  (forall x, x <> T1 ->
     next (final (dequeue_rq_queue 0 T1 (final (enqueue_rq_queue 0 T1 boot)))) x
       = next boot x /\
     prev (final (dequeue_rq_queue 0 T1 (final (enqueue_rq_queue 0 T1 boot)))) x
       = prev boot x /\
     next (final (dequeue_rq_queue 0 T1
                    (final (enqueue_rq_queue_head 0 T1 boot)))) x
       = next boot x /\
     prev (final (dequeue_rq_queue 0 T1
                    (final (enqueue_rq_queue_head 0 T1 boot)))) x
       = prev boot x) /\
  rq_wf NRP (final (dequeue_rq_queue 0 T1 (final (enqueue_rq_queue 0 T1 boot))))
        0 no_threads.
Proof.
  pose proof (@enqueue_dequeue_round_trip NRP boot 0 no_threads T1 boot_wf
                eq_refl) as R.
  cbv zeta in R.
  assert (Hp : priority boot T1 < NRP) by (vm_compute; lia).
  assert (NQ : ~ queued NRP no_threads T1) by not_queued.
  destruct (R Hp NQ) as (Ho & _ & _ & _ & (Hw & _) & _ & _).
  split; [exact Ho | exact Hw].
Defined.

(** C1, as stated, fails: consistent lists and priorities in range do
    not make the bitmap agree with the lists.  On [stale], where every
    list is empty and consistent while bit 0 is set, the valid enqueue
    of [T1] (priority 2) leaves bit 0 set over the empty list 0. *)
Lemma stale_bit_survives_enqueue :
  rq_lists NRP stale 0 no_threads /\
  op_pre NRP stale no_threads (Enqueue T1) /\
  bit (run_ops 0 [Enqueue T1] stale) 0 0 = true /\
  list_empty (run_ops 0 [Enqueue T1] stale) 0 0 = true /\
  abs_ops 0 stale [Enqueue T1] no_threads 0 = [].
Proof.
  split.
  { intros q Hq.
    constructor; [reflexivity | reflexivity | constructor | intros x []]. }
  split.
  { split; [reflexivity|]. split; [vm_compute; lia | not_queued]. }
  repeat split.
Qed.

(** C4, as stated, fails: after the round trip the thread's [next] and
    [prev] point to the list head, not to the thread.  (Before it they
    pointed to the thread, so its descriptor is not restored either.) *)
Lemma round_trip_leaves_links_into_list :
  rq_wf NRP boot 0 no_threads /\
  is_thread T1 = true /\ priority boot T1 < NRP /\
  ~ queued NRP no_threads T1 /\
  next boot T1 = T1 /\ prev boot T1 = T1 /\
  next (final (dequeue_rq_queue 0 T1 (final (enqueue_rq_queue 0 T1 boot)))) T1
    = Head 0 2 /\
  prev (final (dequeue_rq_queue 0 T1 (final (enqueue_rq_queue 0 T1 boot)))) T1
    = Head 0 2 /\
  next (final (dequeue_rq_queue 0 T1
                 (final (enqueue_rq_queue_head 0 T1 boot)))) T1
    = Head 0 2 /\
  Head 0 2 <> T1.
Proof.
  split; [exact boot_wf|].
  split; [reflexivity|].
  split; [vm_compute; lia|].
  split; [not_queued|].
  repeat split; discriminate.
Qed.

Lemma queue_operations_unchecked_witness :
  prev (final (enqueue_rq_queue 0 T1 (final (enqueue_rq_queue 0 T1 boot))))
       (Head 0 2) = T1 /\
  next (final (enqueue_rq_queue 0 T1 (final (enqueue_rq_queue 0 T1 boot))))
       T1 = Head 0 2 /\
  prev (final (enqueue_rq_queue 0 T1 (final (enqueue_rq_queue 0 T1 boot))))
       T1 = T1.
Proof.
  assert (Hp : priority (final (enqueue_rq_queue 0 T1 boot)) T1 < NRP)
    by (vm_compute; lia).
  destruct (@queue_operations_unchecked NRP 0 T1
              (final (enqueue_rq_queue 0 T1 boot)) eq_refl Hp) as (E & _).
  destruct (E ltac:(discriminate)) as (E1 & E2 & E3).
  split; [exact E1|]. split; [exact E2|]. apply E3. reflexivity.
Defined.

(** C7, as stated, fails: enqueueing the queued [T1] a second time, and
    dequeueing [T3], which is not queued, both return.  The second
    enqueue leaves [T1->prev == T1]: the list can no longer be walked
    backwards from its head. *)
Lemma double_enqueue_and_absent_dequeue_return :
  rq_wf NRP (final (enqueue_rq_queue 0 T1 boot)) 0 (enq_tail no_threads 2 T1) /\
  queued NRP (enq_tail no_threads 2 T1) T1 /\
  ~ queued NRP (enq_tail no_threads 2 T1) T3 /\
  call (enqueue_rq_queue 0 T1) (final (enqueue_rq_queue 0 T1 boot))
    <> Panicked /\
  call (enqueue_rq_queue_head 0 T1) (final (enqueue_rq_queue 0 T1 boot))
    <> Panicked /\
  call (dequeue_rq_queue 0 T3) (final (enqueue_rq_queue 0 T1 boot))
    <> Panicked /\
  prev (final (enqueue_rq_queue 0 T1 (final (enqueue_rq_queue 0 T1 boot)))) T1
    = T1.
Proof.
  split.
  { apply (@enqueue_rq_queue_wf NRP boot 0 no_threads T1 boot_wf eq_refl).
    - vm_compute. lia.
    - intros []. }
  split; [exists 2; split; [unfold NRP; lia | now left]|].
  split; [not_queued|].
  repeat split; discriminate.
Qed.

(** C8, as stated, fails: [init_rq] leaves a set bit set. *)
Lemma init_rq_keeps_bitmap :
  bit stale 0 0 = true /\
  bit (final (init_rq NRP 0 stale)) 0 0 = true /\
  list_empty (final (init_rq NRP 0 stale)) 0 0 = true.
Proof. repeat split. Qed.

Lemma boot_wf_any (r : nat) : rq_wf NRP boot r no_threads.
Proof.
  intros p Hp. split.
  - constructor; simpl; auto using NoDup_nil. intros x [].
  - unfold bit, list_empty. simpl. rewrite !Nat.eqb_refl.
    apply Z.testbit_0_l.
Qed.

Lemma scenario_ok :
  ops_ok NRP 0 boot no_threads [Enqueue T1; Enqueue T2; Enqueue T3].
Proof. repeat split; try (vm_compute; lia); not_queued. Qed.

Lemma queue_operations_refine_contents_witness :
  rq_wf NRP (run_ops 0 [Enqueue T1; Enqueue T2; Enqueue T3] boot) 0
        (abs_ops 0 boot [Enqueue T1; Enqueue T2; Enqueue T3] no_threads) /\
  priority (run_ops 0 [Enqueue T1; Enqueue T2; Enqueue T3] boot) =
    priority boot.
Proof.
  apply (@queue_operations_refine_contents NRP boot 0 no_threads
           [Enqueue T1; Enqueue T2; Enqueue T3] (boot_wf_any 0) scenario_ok).
Defined.

Lemma scenario_wf :
  rq_wf NRP (run_ops 0 [Enqueue T1; Enqueue T2; Enqueue T3] boot) 0
        (abs_ops 0 boot [Enqueue T1; Enqueue T2; Enqueue T3] no_threads).
Proof. apply run_ops_wf; [apply boot_wf_any | apply scenario_ok]. Qed.

Local Abbreviation scenario :=
  (run_ops 0 [Enqueue T1; Enqueue T2; Enqueue T3] boot).

Local Abbreviation scenario_contents :=
  (abs_ops 0 boot [Enqueue T1; Enqueue T2; Enqueue T3] no_threads).

Lemma pick_next_task_most_urgent_witness :
  (result (pick_next_task NRP NRB 0 scenario) = NULL <->
   forall p, p < NRP -> scenario_contents p = []) /\
  (result (pick_next_task NRP NRB 0 scenario) <> NULL ->
   priority scenario (result (pick_next_task NRP NRB 0 scenario)) < NRP /\
   hd NULL (scenario_contents
              (priority scenario (result (pick_next_task NRP NRB 0 scenario))))
     = result (pick_next_task NRP NRB 0 scenario) /\
   forall x, queued NRP scenario_contents x ->
     priority scenario (result (pick_next_task NRP NRB 0 scenario))
       <= priority scenario x).
Proof.
  exact (@pick_next_task_most_urgent NRP NRB scenario 0 scenario_contents
           scenario_wf).
Defined.

Lemma dequeue_enqueue_rotates_witness :
  rq_wf NRP
    (final (enqueue_rq_queue 0 T1 (final (dequeue_rq_queue 0 T1 scenario)))) 0
    (fun p => if Nat.eqb p (priority scenario T1)
              then remove ptr_eq_dec T1 (scenario_contents p) ++ [T1]
              else scenario_contents p).
Proof.
  apply (@dequeue_enqueue_rotates NRP scenario 0 scenario_contents T1
           scenario_wf).
  exists 2. split; [unfold NRP; lia | vm_compute; auto].
Defined.

(** After the rotation of [T1] the list at priority 2 reads [T3], [T1]. *)
Example scenario_rotation :
  drain NRP NRB 3 0
    (final (enqueue_rq_queue 0 T1 (final (dequeue_rq_queue 0 T1 scenario)))) =
  [T2; T3; T1].
Proof. vm_compute. reflexivity. Qed.

Lemma drain_serves_each_thread_once_witness :
  drain NRP NRB 3 0 scenario = order NRP scenario_contents /\
  NoDup (drain NRP NRB 3 0 scenario) /\
  (forall x, In x (drain NRP NRB 3 0 scenario) <->
             queued NRP scenario_contents x) /\
  StronglySorted (fun a b => priority scenario a <= priority scenario b)
                 (drain NRP NRB 3 0 scenario).
Proof.
  apply (@drain_serves_each_thread_once NRP NRB scenario 0 scenario_contents 3
           scenario_wf).
  vm_compute. lia.
Defined.

Lemma run_op_leaves_other_rq_witness :
  rq_wf NRP (run_op 0 (Enqueue T4) scenario) 1 no_threads.
Proof.
  apply (@run_op_leaves_other_rq NRP scenario 0 1 scenario_contents
           no_threads (Enqueue T4) scenario_wf).
  - intros p Hp. split.
    + constructor; [reflexivity | reflexivity | constructor | intros x []].
    + unfold bit, list_empty.
      change (bitmap scenario 1) with 0%Z.
      change (next scenario (Head 1 p)) with (Head 1 p).
      rewrite ptr_eqb_refl. apply Z.testbit_0_l.
  - discriminate.
  - intros x _ (p & _ & []).
  - split; [reflexivity|]. split; [vm_compute; lia | not_queued].
  - intros (p & _ & []).
Defined.

End RunQueue.

(* ================================================================== *)
(** ** Properties of the spinlock *)
(* ================================================================== *)

Module SpinlockSpec.

Import Spinlock.

Local Open Scope Z_scope.

(** Setting bit 0 of a word whose bit 0 is set changes nothing. *)
Lemma lor_1_set (v : Z) : Z.testbit v 0 = true -> Z.lor v 1 = v.
Proof.
  intros Hb. apply Z.bits_inj'. intros n Hn.
  rewrite Z.lor_spec.
  destruct (Z.eq_dec n 0) as [->|Hne].
  - rewrite Hb. reflexivity.
  - replace (Z.testbit 1 n) with false; [apply orb_false_r|].
    symmetry. apply Z.bits_above_log2; simpl; lia.
Qed.

Lemma lor_1_bit0 (v : Z) : Z.testbit (Z.lor v 1) 0 = true.
Proof. rewrite Z.lor_spec. apply orb_true_r. Qed.

Lemma clearbit_IF (f : Z) : irqs_enabled (Z.clearbit f IF_BIT) = false.
Proof.
  unfold irqs_enabled. rewrite Z.clearbit_eqb by (unfold IF_BIT; lia).
  rewrite Z.eqb_refl. apply andb_false_r.
Qed.

(** C6.  [spin_unlock] performs, in this order: the load of the saved
    flags, the barrier, the store of [_SPIN_UNLOCKED] to the lock word,
    and last the restore of the saved flags.  The restore is issued in
    a state whose lock word already reads [_SPIN_UNLOCKED], and no
    earlier effect changes [%rflags]. *)
Theorem spin_unlock_clears_then_restores (m : machine) :
  map fst (log (spin_unlock m)) =
    [LoadLockRflags; Barrier; StoreLockVal _SPIN_UNLOCKED;
     IrqRestore (lock_rflags m)] /\
  Forall (fun ev =>
            if is_irq_restore (fst ev)
            then lock_val (snd ev) = _SPIN_UNLOCKED
            else cpu_rflags (snd ev) = cpu_rflags m)
         (log (spin_unlock m)) /\
  lock_val (final (spin_unlock m)) = _SPIN_UNLOCKED /\
  cpu_rflags (final (spin_unlock m)) = lock_rflags m.
Proof.
  destruct m as [v lf cf]. cbn.
  repeat split; repeat constructor.
Qed.

(** C9.  [spin_trylock] on a held lock (test-and-set returns
    [_SPIN_LOCKED]) returns [false] and leaves the lock word, the saved
    flags and the caller's [%rflags] as they were; on a free lock it
    returns [true], the lock bit is set, interrupts are disabled and the
    caller's flags are saved in the lock. *)
Theorem spin_trylock_spec (m : machine) :
  if Z.testbit (lock_val m) 0
  then result (spin_trylock m) = false /\
       final (spin_trylock m) = m
  else result (spin_trylock m) = true /\
       lock_val (final (spin_trylock m)) = Z.lor (lock_val m) 1 /\
       Z.testbit (lock_val (final (spin_trylock m))) 0 = true /\
       (lock_val m = _SPIN_UNLOCKED ->
        lock_val (final (spin_trylock m)) = _SPIN_LOCKED) /\
       irqs_enabled (cpu_rflags (final (spin_trylock m))) = false /\
       lock_rflags (final (spin_trylock m)) = cpu_rflags m.
Proof.
  destruct m as [v lf cf].
  cbv [spin_trylock bind local_irq_disable_save atomic_bit_test_and_set
       local_irq_restore store_lock_rflags ret result final
       lock_val lock_rflags cpu_rflags fst snd _SPIN_LOCKED].
  destruct (Z.testbit v 0) eqn:Hb.
  - change (1 =? 1) with true. cbv beta iota.
    split; [reflexivity|]. now rewrite lor_1_set.
  - change (0 =? 1) with false. cbv beta iota.
    repeat split; auto using lor_1_bit0, clearbit_IF.
    intros E. rewrite E. reflexivity.
Qed.

(** *** [spin_lock], and how the operations compose *)

Lemma lock_result_bind {A B} (c : M A) (k : A -> M B) m :
  result (bind c k m) = result (k (result (c m)) (final (c m))).
Proof.
  unfold bind, result, final. destruct (c m) as [[a m1] t1]. simpl.
  destruct (k a m1) as [[b m2] t2]. reflexivity.
Qed.

Lemma lock_final_bind {A B} (c : M A) (k : A -> M B) m :
  final (bind c k m) = final (k (result (c m)) (final (c m))).
Proof.
  unfold bind, result, final. destruct (c m) as [[a m1] t1]. simpl.
  destruct (k a m1) as [[b m2] t2]. reflexivity.
Qed.

(** The busy-wait loop only reads. *)
Lemma spin_wait_final fuel : forall m, final (spin_wait fuel m) = m.
Proof.
  induction fuel as [|k IH]; intros m; [reflexivity|].
  cbn [spin_wait]. rewrite lock_final_bind.
  change (result (load_lock_val m)) with (lock_val m).
  change (final (load_lock_val m)) with m.
  destruct (lock_val m =? _SPIN_LOCKED); [|reflexivity].
  rewrite lock_final_bind. apply IH.
Qed.

Lemma spin_wait_held fuel : forall m,
  lock_val m = _SPIN_LOCKED -> result (spin_wait fuel m) = false.
Proof.
  induction fuel as [|k IH]; intros m E; [reflexivity|].
  cbn [spin_wait]. rewrite lock_result_bind.
  change (result (load_lock_val m)) with (lock_val m).
  change (final (load_lock_val m)) with m.
  rewrite E. change (_SPIN_LOCKED =? _SPIN_LOCKED) with true. cbv iota.
  rewrite lock_result_bind. now apply IH.
Qed.

Lemma spin_acquire_step k rflags m :
  Z.testbit (lock_val m) 0 = true ->
  spin_acquire (S k) rflags m =
  bind atomic_bit_test_and_set
       (fun _ =>
          local_irq_restore rflags ;;;
          left <- spin_wait k ;;
          if left then local_irq_disable ;;; spin_acquire k rflags
          else ret false) m.
Proof.
  intros Hb. cbn [spin_acquire]. unfold bind at 1 3.
  unfold atomic_bit_test_and_set. rewrite Hb. reflexivity.
Qed.

Lemma spin_acquire_held fuel : forall rflags m,
  Z.testbit (lock_val m) 0 = true ->
  result (spin_acquire fuel rflags m) = false.
Proof.
  induction fuel as [|k IH]; intros rflags m Hb; [reflexivity|].
  rewrite (@spin_acquire_step k rflags m Hb).
  rewrite lock_result_bind, lock_result_bind, lock_result_bind.
  rewrite !spin_wait_final.
  destruct (result (spin_wait k _)); [|reflexivity].
  rewrite lock_result_bind. apply IH.
  cbn. rewrite <- (Z.bit0_odd (Z.lor (lock_val m) 1)). apply lor_1_bit0.
Qed.

(** X1.  On a free lock [spin_lock] does not spin: as soon as it has
    fuel for one test-and-set it returns, and the call is the same as a
    successful [spin_trylock], log included. *)
Theorem spin_lock_free_is_trylock (m : machine) (fuel : nat) :
  Z.testbit (lock_val m) 0 = false ->
  spin_lock (S fuel) m = spin_trylock m /\
  result (spin_lock (S fuel) m) = true.
Proof.
  intros Hb. destruct m as [v lf cf]. cbn [lock_val] in Hb.
  cbv [spin_lock spin_trylock spin_acquire bind local_irq_disable_save
       atomic_bit_test_and_set store_lock_rflags ret result
       lock_val lock_rflags cpu_rflags fst snd _SPIN_LOCKED app].
  rewrite Hb. change (0 =? 1) with false. cbv beta iota.
  split; reflexivity.
Qed.

Lemma spin_lock_free_is_trylock_witness :
  spin_lock 1 (Machine 0 0 514) = spin_trylock (Machine 0 0 514) /\
  result (spin_lock 1 (Machine 0 0 514)) = true.
Proof. apply (spin_lock_free_is_trylock (Machine 0 0 514) 0). reflexivity. Defined.

(** X2.  On a held lock that nobody releases [spin_lock] never
    acquires, whatever the fuel; when the lock word is exactly
    [_SPIN_LOCKED] it busy-waits with the lock and the caller's
    [%rflags] as they were before the call. *)
Theorem spin_lock_held_never_acquires (m : machine) (fuel : nat) :
  Z.testbit (lock_val m) 0 = true ->
  result (spin_lock fuel m) = false /\
  (lock_val m = _SPIN_LOCKED -> final (spin_lock (S fuel) m) = m).
Proof.
  intros Hb. split.
  - unfold spin_lock. rewrite lock_result_bind, lock_result_bind.
    rewrite spin_acquire_held; [reflexivity|exact Hb].
  - intros E. destruct m as [v lf cf]. simpl in E. subst v.
    unfold spin_lock. rewrite lock_final_bind, lock_final_bind.
    rewrite spin_acquire_held by reflexivity.
    change (final (ret false ?x)) with x.
    change (result (local_irq_disable_save (Machine _SPIN_LOCKED lf cf)))
      with cf.
    rewrite (@spin_acquire_step fuel cf
               (final (local_irq_disable_save (Machine _SPIN_LOCKED lf cf))))
      by reflexivity.
    rewrite lock_final_bind, lock_final_bind, lock_final_bind, spin_wait_final.
    rewrite spin_wait_held by reflexivity.
    reflexivity.
Qed.

Lemma spin_lock_held_never_acquires_witness :
  result (spin_lock 5 (Machine 1 0 514)) = false /\
  (lock_val (Machine 1 0 514) = _SPIN_LOCKED ->
   final (spin_lock 6 (Machine 1 0 514)) = Machine 1 0 514).
Proof.
  split.
  - apply (spin_lock_held_never_acquires (Machine 1 0 514) 5). reflexivity.
  - apply (spin_lock_held_never_acquires (Machine 1 0 514) 5). reflexivity.
Defined.

(** The state [spin_lock] leaves when it finds the lock free. *)
Lemma spin_lock_free_final (m : machine) (fuel : nat) :
  Z.testbit (lock_val m) 0 = false ->
  final (spin_lock (S fuel) m) =
  Machine (Z.lor (lock_val m) 1) (cpu_rflags m)
          (Z.clearbit (cpu_rflags m) IF_BIT).
Proof.
  intros Hb. destruct m as [v lf cf]. cbn [lock_val] in Hb.
  cbv [spin_lock spin_acquire bind local_irq_disable_save
       atomic_bit_test_and_set store_lock_rflags ret final
       lock_val lock_rflags cpu_rflags fst snd _SPIN_LOCKED app].
  rewrite Hb. change (0 =? 1) with false. cbv beta iota. reflexivity.
Qed.

(** X3.  [spin_lock] on a free lock followed by [spin_unlock]: in
    between the lock bit is set and interrupts are off; afterwards the
    lock word is [_SPIN_UNLOCKED] and [%rflags] is what it was before
    [spin_lock]. *)
Theorem spin_lock_unlock_round_trip (m : machine) (fuel : nat) :
  Z.testbit (lock_val m) 0 = false ->
  Z.testbit (lock_val (final (spin_lock (S fuel) m))) 0 = true /\
  irqs_enabled (cpu_rflags (final (spin_lock (S fuel) m))) = false /\
  final (spin_unlock (final (spin_lock (S fuel) m))) =
    Machine _SPIN_UNLOCKED (cpu_rflags m) (cpu_rflags m).
Proof.
  intros Hb. rewrite (spin_lock_free_final m fuel Hb).
  cbn [lock_val cpu_rflags].
  split; [apply lor_1_bit0|]. split; [apply clearbit_IF|]. reflexivity.
Qed.

Lemma spin_lock_unlock_round_trip_witness :
  Z.testbit (lock_val (final (spin_lock 1 (Machine 0 0 514)))) 0 = true /\
  irqs_enabled (cpu_rflags (final (spin_lock 1 (Machine 0 0 514)))) = false /\
  final (spin_unlock (final (spin_lock 1 (Machine 0 0 514)))) =
    Machine _SPIN_UNLOCKED 514 514.
Proof. apply (spin_lock_unlock_round_trip (Machine 0 0 514) 0). reflexivity. Defined.

(** X4.  The life of a lock: after [spin_init] a [spin_trylock]
    succeeds; a second one fails and changes nothing (the lock is not
    reentrant); after [spin_unlock] a [spin_trylock] succeeds again. *)
Theorem spin_trylock_life_cycle (m : machine) :
  result (spin_trylock (final (spin_init m))) = true /\
  result (spin_trylock (final (spin_trylock (final (spin_init m))))) = false /\
  final (spin_trylock (final (spin_trylock (final (spin_init m))))) =
    final (spin_trylock (final (spin_init m))) /\
  result (spin_trylock
            (final (spin_unlock
                      (final (spin_trylock (final (spin_init m))))))) = true.
Proof.
  destruct m as [v lf cf]. repeat split.
Qed.

End SpinlockSpec.

(* ================================================================== *)
(** ** Properties of the lists of [list.h] *)
(* ================================================================== *)

Module ListNodeSpec.

Import RunQueue RunQueue.ListNode.

Local Open Scope list_h_scope.

(** *** What each function computes *)

Lemma list_init_eq node h :
  list_init node h =
  Some (tt, Heap (upd (node_next h) node node) (upd (node_prev h) node node)).
Proof. reflexivity. Qed.

Lemma list_empty_eq node h :
  list_empty node h =
  if ptr_eqb (node_next h node) node
  then (if ptr_eqb (node_prev h node) node then Some (true, h) else None)
  else (if ptr_eqb (node_prev h node) node then None else Some (false, h)).
Proof.
  unfold list_empty, lbind, get_node_next, get_node_prev, assert, lret.
  destruct (ptr_eqb (node_next h node) node);
    destruct (ptr_eqb (node_prev h node) node); reflexivity.
Qed.

Lemma list_add_eq node new h :
  list_add node new h =
  Some (tt,
        Heap (upd (upd (node_next h) new (node_next h node)) node new)
             (upd (upd (node_prev h)
                       (upd (node_next h) new (node_next h node) new) new)
                  new node)).
Proof. reflexivity. Qed.

Lemma list_add_tail_eq node new h :
  list_add_tail node new h =
  Some (tt,
        Heap (upd (upd (node_next h)
                       (upd (node_prev h) new (node_prev h node) new) new)
                  new node)
             (upd (upd (node_prev h) new (node_prev h node)) node new)).
Proof. reflexivity. Qed.

Lemma list_del_eq node h :
  list_del node h =
  if list_del_checks node h
  then
    Some (tt,
          Heap (upd (upd (node_next h) (node_prev h node) (node_next h node))
                    node node)
               (upd (upd (node_prev h) (node_next h node) (node_prev h node))
                    node node))
  else None.
Proof.
  unfold list_del, list_del_checks, lbind, get_node_next, get_node_prev,
    set_node_next, set_node_prev, assert.
  destruct (ptr_eqb (node_prev h node) NULL); simpl; [reflexivity|].
  destruct (ptr_eqb (node_next h node) NULL); simpl; [reflexivity|].
  destruct (ptr_eqb (node_next h (node_prev h node)) node); simpl;
    [|reflexivity].
  destruct (ptr_eqb (node_prev h (node_next h node)) node); reflexivity.
Qed.

(** *** Consistent lists *)

Lemma dlist_next_head h node l : dlist h node l -> node_next h node = hd node l.
Proof. intros (F & _). apply (chain_first _ _ _ _ F). Qed.

Lemma dlist_prev_head h node l : dlist h node l -> node_prev h node = last l node.
Proof.
  intros (_ & B & _). rewrite (chain_first _ _ _ _ B), hd_last_rev.
  now rewrite rev_involutive.
Qed.

Lemma dlist_nodup_rev h node l : dlist h node l -> NoDup (node :: rev l).
Proof.
  intros (_ & _ & ND & _). apply NoDup_cons_iff in ND as [Hn ND].
  constructor; [now rewrite <- in_rev | now apply NoDup_rev].
Qed.

(** The neighbours of a member, as [list_del] reads them. *)
Lemma dlist_member h node l1 x l2 :
  dlist h node (l1 ++ x :: l2) ->
  node_prev h x = last l1 node /\
  node_next h x = last (rev l2) node /\
  node_next h (last l1 node) = x /\
  node_prev h (last (rev l2) node) = x.
Proof.
  intros (F & B & _).
  rewrite rev_app_distr in B. simpl in B. rewrite <- app_assoc in B.
  apply chain_app in F. destruct F as [F1 F2].
  apply chain_app in B. destruct B as [B1 B2].
  repeat split.
  - rewrite (chain_first _ _ _ _ B2), hd_last_rev. now rewrite rev_involutive.
  - rewrite (chain_first _ _ _ _ F2). apply hd_last_rev.
  - apply (chain_last _ _ _ _ F1).
  - apply (chain_last _ _ _ _ B1).
Qed.

(** X11.  A node initialised by [list_init] is an empty list:
    [list_empty] returns [true] on it without tripping an assertion,
    and it is a consistent list with no member. *)
Theorem list_init_is_empty (node : ptr) (h : heap) :
  exists h',
    list_init node h = Some (tt, h') /\
    list_empty node h' = Some (true, h') /\
    (node <> NULL -> dlist h' node []).
Proof.
  eexists. split; [apply list_init_eq|]. split.
  - rewrite list_empty_eq. simpl. now rewrite !upd_same, ptr_eqb_refl.
  - intros N. unfold dlist. split; [|split; [|split]]; simpl.
    + apply upd_same.
    + apply upd_same.
    + repeat constructor. intros [].
    + intros [E|[]]. now apply N.
Qed.

(** X12.  On a consistent list [list_empty] trips no assertion, changes
    nothing and tells whether the list has no member. *)
Theorem list_empty_on_dlist (h : heap) (node : ptr) (l : list ptr) :
  dlist h node l ->
  list_empty node h = Some (match l with [] => true | _ => false end, h).
Proof.
  intros D. rewrite list_empty_eq.
  rewrite (dlist_next_head D), (dlist_prev_head D).
  destruct D as (_ & _ & ND & _).
  destruct l as [|a l]; cbn [hd].
  - simpl. now rewrite ptr_eqb_refl.
  - assert (Na : a <> node).
    { intros ->. apply NoDup_cons_iff in ND as [Hn _]. apply Hn. now left. }
    assert (Nl : last (a :: l) node <> node).
    { intros E. apply NoDup_cons_iff in ND as [Hn _]. apply Hn.
      rewrite <- E at 1. rewrite last_cons_in.
      destruct (last_in l a) as [<-|Hin]; [now left | now right]. }
    apply ptr_eqb_neq in Na, Nl. now rewrite Na, Nl.
Qed.

(** X14.  [list_add] on a consistent list links the new node right
    after the head: the list is consistent again with the new node as
    its first member. *)
Theorem list_add_pushes_front (h : heap) (node new : ptr) (l : list ptr) :
  dlist h node l -> ~ In new (node :: l) -> new <> NULL ->
  exists h',
    list_add node new h = Some (tt, h') /\ dlist h' node (new :: l).
Proof.
  intros D Hnew N. eexists. split; [apply list_add_eq|].
  rewrite upd_same. pose proof (dlist_nodup_rev D) as NDr.
  pose proof (dlist_next_head D) as En. rewrite hd_last_rev in En.
  destruct D as (F & B & ND & NN).
  unfold dlist. split; [|split; [|split]]; cbn [node_next node_prev].
  - now apply chain_insert_after.
  - rewrite En. change (rev (new :: l)) with (rev l ++ [new]).
    apply chain_insert_end; auto.
    intros [E|Hin]; apply Hnew; [now left | right; now apply in_rev].
  - apply NoDup_cons_iff in ND as [Hn ND].
    constructor; [|constructor]; auto.
    + intros [E|Hin]; [apply Hnew; now left | contradiction].
    + intros Hin. apply Hnew. now right.
  - intros [E|[E|Hin]]; [apply NN; now left | now apply N |
                          apply NN; now right].
Qed.

(** X15.  [list_add_tail] on a consistent list links the new node
    right before the head: the list is consistent again with the new
    node as its last member. *)
Theorem list_add_tail_appends (h : heap) (node new : ptr) (l : list ptr) :
  dlist h node l -> ~ In new (node :: l) -> new <> NULL ->
  exists h',
    list_add_tail node new h = Some (tt, h') /\ dlist h' node (l ++ [new]).
Proof.
  intros D Hnew N. eexists. split; [apply list_add_tail_eq|].
  rewrite upd_same. pose proof (dlist_nodup_rev D) as NDr.
  pose proof (dlist_prev_head D) as Ep.
  destruct D as (F & B & ND & NN).
  unfold dlist. split; [|split; [|split]]; cbn [node_next node_prev].
  - rewrite Ep. now apply chain_insert_end.
  - rewrite rev_unit. apply chain_insert_after; auto.
    intros [E|Hin]; apply Hnew; [now left | right; now apply in_rev].
  - rewrite app_comm_cons. apply NoDup_app; [exact ND | repeat constructor; intros [] |].
    intros a Ha [<-|[]]. contradiction.
  - intros Hin. rewrite app_comm_cons in Hin. apply in_app_or in Hin.
    destruct Hin as [Hin|[E|[]]]; [now apply NN | now apply N].
Qed.

Lemma dlist_not_null h node l x : dlist h node l -> In x (node :: l) -> x <> NULL.
Proof. intros (_ & _ & _ & NN) Hin ->. now apply NN. Qed.

Lemma list_del_checks_member h node l1 x l2 :
  dlist h node (l1 ++ x :: l2) -> list_del_checks x h = true.
Proof.
  intros D. destruct (dlist_member _ _ _ D) as (Ep & En & Epn & Enp).
  unfold list_del_checks. rewrite Ep, Epn, En, Enp, !ptr_eqb_refl.
  assert (N1 : last l1 node <> NULL).
  { apply (dlist_not_null D). rewrite app_comm_cons. apply in_or_app. left.
    apply last_in. }
  assert (N2 : last (rev l2) node <> NULL).
  { apply (dlist_not_null D).
    destruct (last_in (rev l2) node) as [<-|Hin]; [now left|right].
    apply in_or_app. right. right. now apply in_rev. }
  apply ptr_eqb_neq in N1, N2. now rewrite N1, N2.
Qed.

Lemma dlist_unlink h node l1 x l2 :
  dlist h node (l1 ++ x :: l2) ->
  dlist (Heap (upd (upd (node_next h) (node_prev h x) (node_next h x)) x x)
              (upd (upd (node_prev h) (node_next h x) (node_prev h x)) x x))
        node (l1 ++ l2).
Proof.
  intros D.
  destruct (dlist_member _ _ _ D) as (Ep & En & _ & _).
  pose proof (dlist_nodup_rev D) as NDr.
  destruct D as (F & B & ND & NN).
  assert (Hx : ~ In x (node :: l1 ++ l2)).
  { rewrite app_comm_cons in *. now apply NoDup_remove_2 in ND. }
  assert (Hrev : rev (l1 ++ x :: l2) = rev l2 ++ x :: rev l1).
  { rewrite rev_app_distr. simpl. now rewrite <- app_assoc. }
  rewrite Hrev in B, NDr.
  unfold dlist. cbn [node_next node_prev]. split; [|split; [|split]].
  - apply chain_frame with (f := upd (node_next h) (node_prev h x)
                                     (node_next h x)).
    + intros y Hy. apply upd_other. intros ->. contradiction.
    + rewrite Ep. now apply chain_remove.
  - apply chain_frame with (f := upd (node_prev h) (node_next h x)
                                     (node_prev h x)).
    + intros y Hy. apply upd_other. intros ->. apply Hx.
      destruct Hy as [<-|Hy]; [now left|right]. now apply in_rev.
    + rewrite En, rev_app_distr. now apply chain_remove.
  - rewrite app_comm_cons in *. now apply NoDup_remove_1 in ND.
  - intros Hin. apply NN. rewrite app_comm_cons in *.
    apply in_app_or in Hin. apply in_or_app.
    destruct Hin; [now left | right; now right].
Qed.

(** X16.  [list_del] of a member of a consistent list trips no
    assertion and unlinks it: the list is consistent again without the
    node, the other members keep their order, and the node points to
    itself. *)
Theorem list_del_unlinks (h : heap) (node x : ptr) (l1 l2 : list ptr) :
  dlist h node (l1 ++ x :: l2) ->
  exists h',
    list_del x h = Some (tt, h') /\
    dlist h' node (l1 ++ l2) /\
    node_next h' x = x /\ node_prev h' x = x.
Proof.
  intros D. eexists. rewrite list_del_eq, (list_del_checks_member _ _ _ D).
  split; [reflexivity|]. split; [now apply dlist_unlink|].
  cbn [node_next node_prev]. split; apply upd_same.
Qed.

Lemma dlist_frame h h' node l :
  (forall x, In x (node :: l) ->
     node_next h' x = node_next h x /\ node_prev h' x = node_prev h x) ->
  dlist h node l -> dlist h' node l.
Proof.
  intros E (F & B & ND & NN). unfold dlist. split; [|split; [|split]]; auto.
  - apply chain_frame with (f := node_next h); [|exact F].
    intros x Hx. now apply E.
  - apply chain_frame with (f := node_prev h); [|exact B].
    intros x [<-|Hx]; apply E; [now left | right; now apply in_rev].
Qed.

Lemma dlist_frame_fresh h h' node new l :
  dlist h node l -> ~ In new (node :: l) ->
  (forall x, x <> new ->
     node_next h' x = node_next h x /\ node_prev h' x = node_prev h x) ->
  dlist h' node l.
Proof.
  intros D Hnew E. apply dlist_frame with (h := h); [|exact D].
  intros x Hx. apply E. intros ->. contradiction.
Qed.

(** X18.  Linking a fresh node with [list_add] or [list_add_tail] and
    unlinking it again with [list_del] gives every other node its
    [next] and [prev] back, leaves the new node pointing to itself and
    the list consistent with its former members. *)
Theorem list_add_del_round_trip (h : heap) (node new : ptr) (l : list ptr) :
  dlist h node l -> ~ In new (node :: l) -> new <> NULL ->
  (exists h1 h2,
     list_add node new h = Some (tt, h1) /\
     list_del new h1 = Some (tt, h2) /\
     (forall x, x <> new ->
        node_next h2 x = node_next h x /\ node_prev h2 x = node_prev h x) /\
     node_next h2 new = new /\ node_prev h2 new = new /\
     dlist h2 node l) /\
  (exists h1 h2,
     list_add_tail node new h = Some (tt, h1) /\
     list_del new h1 = Some (tt, h2) /\
     (forall x, x <> new ->
        node_next h2 x = node_next h x /\ node_prev h2 x = node_prev h x) /\
     node_next h2 new = new /\ node_prev h2 new = new /\
     dlist h2 node l).
Proof.
  intros D Hnew N.
  assert (Hn : new <> node) by (intros ->; apply Hnew; now left).
  assert (Hnode : node <> NULL) by (apply (dlist_not_null D); now left).
  pose proof (dlist_next_head D) as En. rewrite hd_last_rev in En.
  pose proof (dlist_prev_head D) as Ep.
  assert (Hfirst : In (node_next h node) (node :: l)).
  { rewrite En. destruct (last_in (rev l) node) as [<-|Hin];
      [now left | right; now apply in_rev]. }
  assert (Hlast : In (node_prev h node) (node :: l)).
  { rewrite Ep. apply last_in. }
  assert (Nf : node_next h node <> new) by (intros E; now rewrite E in Hfirst).
  assert (Nl : node_prev h node <> new) by (intros E; now rewrite E in Hlast).
  assert (Nf0 : node_next h node <> NULL) by now apply (dlist_not_null D).
  assert (Nl0 : node_prev h node <> NULL) by now apply (dlist_not_null D).
  assert (Eback : node_prev h (node_next h node) = node).
  { rewrite En. destruct D as (_ & B & _). apply (chain_last _ _ _ _ B). }
  assert (Efwd : node_next h (node_prev h node) = node).
  { rewrite Ep. destruct D as (F & _). apply (chain_last _ _ _ _ F). }
  split.
  - eexists. eexists. split; [apply list_add_eq|]. rewrite upd_same.
    rewrite list_del_eq. unfold list_del_checks. cbn [node_next node_prev].
    rewrite !upd_same. rewrite (upd_other _ _ Hn), !upd_same.
    rewrite (upd_other _ _ Nf), !upd_same.
    rewrite (proj2 (ptr_eqb_neq _ _) Hnode), (proj2 (ptr_eqb_neq _ _) Nf0).
    rewrite ptr_eqb_refl. simpl. split; [reflexivity|].
    cbn [node_next node_prev].
    match goal with |- ?F /\ _ => assert (HF : F) end;
      [|split; [exact HF|]; split; [apply upd_same|];
        split; [apply upd_same|]; apply dlist_frame_fresh with (h := h) (new := new);
        [exact D | exact Hnew | exact HF]].
    intros x Hx. rewrite !(upd_other _ _ Hx). split.
    + destruct (ptr_eq_dec x node) as [->|Nx];
        [now rewrite upd_same | now rewrite !upd_other].
    + destruct (ptr_eq_dec x (node_next h node)) as [->|Nx].
      * now rewrite upd_same.
      * now rewrite !upd_other.
  - eexists. eexists. split; [apply list_add_tail_eq|]. rewrite upd_same.
    rewrite list_del_eq. unfold list_del_checks. cbn [node_next node_prev].
    rewrite !upd_same. rewrite (upd_other _ _ Hn), !upd_same.
    rewrite (upd_other _ _ Nl), !upd_same.
    rewrite (proj2 (ptr_eqb_neq _ _) Hnode), (proj2 (ptr_eqb_neq _ _) Nl0).
    rewrite ptr_eqb_refl. simpl. split; [reflexivity|].
    cbn [node_next node_prev].
    match goal with |- ?F /\ _ => assert (HF : F) end;
      [|split; [exact HF|]; split; [apply upd_same|];
        split; [apply upd_same|]; apply dlist_frame_fresh with (h := h) (new := new);
        [exact D | exact Hnew | exact HF]].
    intros x Hx. rewrite !(upd_other _ _ Hx). split.
    + destruct (ptr_eq_dec x (node_prev h node)) as [->|Nx].
      * now rewrite upd_same.
      * now rewrite !upd_other.
    + destruct (ptr_eq_dec x node) as [->|Nx];
        [now rewrite upd_same | now rewrite !upd_other].
Qed.

(** X19.  [list_del] leaves the node initialised, so it can be repeated:
    a second [list_del] of the same node trips no assertion and changes
    no link. *)
Theorem list_del_twice (h h1 : heap) (node : ptr) :
  node <> NULL -> list_del node h = Some (tt, h1) ->
  node_next h1 node = node /\ node_prev h1 node = node /\
  exists h2,
    list_del node h1 = Some (tt, h2) /\
    forall x, node_next h2 x = node_next h1 x /\
              node_prev h2 x = node_prev h1 x.
Proof.
  intros N E. rewrite list_del_eq in E.
  destruct (list_del_checks node h); [|discriminate].
  injection E as <-. cbn [node_next node_prev].
  rewrite !upd_same. split; [reflexivity|]. split; [reflexivity|].
  eexists. rewrite list_del_eq. unfold list_del_checks.
  cbn [node_next node_prev]. rewrite !upd_same, !ptr_eqb_refl.
  rewrite (proj2 (ptr_eqb_neq _ _) N). simpl. split; [reflexivity|].
  cbn [node_next node_prev]. intros x.
  destruct (ptr_eq_dec x node) as [->|Nx].
  - now rewrite !upd_same.
  - now rewrite !(upd_other _ _ Nx).
Qed.

Lemma list_for_each_chain h node l : forall a,
  chain (node_next h) a l node -> ~ In node l ->
  list_for_each (length l) node (node_next h a) h = Some l.
Proof.
  induction l as [|b l IH]; intros a C Hn.
  - simpl in C. rewrite C. cbn [length list_for_each]. now rewrite ptr_eqb_refl.
  - destruct C as [C1 C2]. rewrite C1. cbn [length list_for_each].
    assert (Nb : b <> node) by (intros ->; apply Hn; now left).
    rewrite (proj2 (ptr_eqb_neq _ _) Nb).
    rewrite IH; auto. intros Hin. apply Hn. now right.
Qed.

(** X20.  On a consistent list [list_for_each] takes each member once,
    in list order, and stops when it is back at the head, after as many
    iterations as the list has members. *)
Theorem list_for_each_visits_members (h : heap) (node : ptr) (l : list ptr) :
  dlist h node l ->
  list_for_each (length l) node (node_next h node) h = Some l.
Proof.
  intros (F & _ & ND & _). apply list_for_each_chain; [exact F|].
  now apply NoDup_cons_iff in ND.
Qed.

(** One run of the loop of [list_for_each_safe] with [list_del] as its
    body, from any member on. *)
Lemma list_for_each_safe_del_spec node : forall l h sp,
  dlist h node l ->
  (l <> [] -> sp = node_next h (hd node l)) ->
  exists h',
    list_for_each_safe_del (length l) node (hd node l) sp h
      = Some (Some l, h') /\
    dlist h' node [] /\
    (forall x, In x l -> node_next h' x = x /\ node_prev h' x = x) /\
    (forall x, ~ In x (node :: l) ->
       node_next h' x = node_next h x /\ node_prev h' x = node_prev h x).
Proof.
  induction l as [|c l IH]; intros h sp D Hsp.
  - exists h. cbn [length hd list_for_each_safe_del].
    rewrite ptr_eqb_refl. split; [reflexivity|]. split; [exact D|].
    split; [intros x [] | now intros x _].
  - pose proof (dlist_unlink [] c l D) as D1.
    pose proof (list_del_checks_member [] c l D) as Ck.
    destruct (dlist_member [] c l D) as (Ep & En & _ & _).
    cbn [last] in Ep. cbn [app] in D1.
    set (h1 := Heap _ _) in D1.
    assert (Nc : c <> node).
    { destruct D as (_ & _ & ND & _). apply NoDup_cons_iff in ND as [Hn _].
      intros ->. apply Hn. now left. }
    assert (Hc : ~ In c (node :: l)).
    { destruct D as (_ & _ & ND & _). intros [E|Hin]; [now apply Nc|].
      apply NoDup_cons_iff in ND as [_ ND].
      now apply NoDup_cons_iff in ND as [Hn _]. }
    destruct (IH h1 (node_next h1 (hd node l)) D1 (fun _ => eq_refl))
      as (h' & E & D' & Self & Frame).
    exists h'. cbn [length hd list_for_each_safe_del].
    rewrite (proj2 (ptr_eqb_neq _ _) Nc).
    unfold lbind at 1. rewrite list_del_eq, Ck. fold h1.
    unfold lbind at 1. unfold get_node_next at 1.
    rewrite (Hsp ltac:(discriminate)). cbn [hd].
    rewrite En, <- hd_last_rev.
    unfold lbind at 1. rewrite E. unfold lret. cbn [option_map].
    split; [reflexivity|]. split; [exact D'|]. split.
    + intros x [<-|Hin]; [|now apply Self].
      destruct (Frame c Hc) as [-> ->]. unfold h1. cbn [node_next node_prev].
      now rewrite !upd_same.
    + intros x Hx. assert (Hx' : ~ In x (node :: l)).
      { intros [E'|Hin]; apply Hx; [now left | right; now right]. }
      destruct (Frame x Hx') as [-> ->]. unfold h1. cbn [node_next node_prev].
      assert (N1 : x <> c) by (intros ->; apply Hx; right; now left).
      assert (N2 : x <> node) by (intros ->; apply Hx; now left).
      assert (N3 : x <> last (rev l) node).
      { intros ->. apply Hx'.
        destruct (last_in (rev l) node) as [<-|Hin];
          [now left | right; now apply in_rev]. }
      rewrite Ep, En. now rewrite !upd_other.
Qed.

(** X21.  [list_for_each_safe] with [list_del] as its body pops the
    whole of a consistent list: it takes every member once, in list
    order, leaves the head an empty list and every member pointing to
    itself, and touches no node outside the list. *)
Theorem list_for_each_safe_pops_all (h : heap) (node : ptr) (l : list ptr) :
  dlist h node l ->
  exists h',
    list_pop_all (length l) node h = Some (Some l, h') /\
    dlist h' node [] /\
    (forall x, In x l -> node_next h' x = x /\ node_prev h' x = x) /\
    (forall x, ~ In x (node :: l) ->
       node_next h' x = node_next h x /\ node_prev h' x = node_prev h x).
Proof.
  intros D.
  destruct (@list_for_each_safe_del_spec node l h
              (node_next h (hd node l)) D (fun _ => eq_refl))
    as (h' & E & R).
  exists h'. split; [|exact R].
  unfold list_pop_all, lbind, get_node_next.
  now rewrite (dlist_next_head D).
Qed.

Lemma list_for_each_del_stuck node c : c <> node -> c <> NULL ->
  forall fuel h, node_next h c = c -> node_prev h c = c ->
  exists h', list_for_each_del fuel node c h = Some (None, h').
Proof.
  intros Nc N. induction fuel as [|k IH]; intros h En Ep.
  - exists h. cbn [list_for_each_del].
    now rewrite (proj2 (ptr_eqb_neq _ _) Nc).
  - cbn [list_for_each_del]. rewrite (proj2 (ptr_eqb_neq _ _) Nc).
    unfold lbind at 1. rewrite list_del_eq. unfold list_del_checks.
    rewrite En, Ep, En, ptr_eqb_refl, (proj2 (ptr_eqb_neq _ _) N).
    cbn [negb andb]. set (h1 := Heap _ _).
    assert (En1 : node_next h1 c = c) by apply upd_same.
    assert (Ep1 : node_prev h1 c = c) by apply upd_same.
    destruct (IH h1 En1 Ep1) as (h' & E).
    exists h'. unfold lbind at 1. unfold get_node_next at 1. rewrite En1.
    unfold lbind. now rewrite E.
Qed.

(** X22.  [list_for_each] with [list_del] as its body, against the
    header's warning, never ends on a list that has a member: the first
    member, once deleted, is its own successor, so the iterator stays on
    it and never gets back to the head, whatever number of iterations
    is allowed; no assertion trips either. *)
Theorem list_for_each_del_never_ends
  (h : heap) (node c : ptr) (l : list ptr) (fuel : nat) :
  dlist h node (c :: l) ->
  exists h',
    (c' <- get_node_next node ;; list_for_each_del fuel node c') h
      = Some (None, h').
Proof.
  intros D. unfold lbind at 1. unfold get_node_next at 1.
  rewrite (dlist_next_head D). cbn [hd].
  assert (Nc : c <> node).
  { destruct D as (_ & _ & ND & _). apply NoDup_cons_iff in ND as [Hn _].
    intros ->. apply Hn. now left. }
  assert (N : c <> NULL) by (apply (dlist_not_null D); right; now left).
  destruct fuel as [|k].
  - exists h. cbn [list_for_each_del].
    now rewrite (proj2 (ptr_eqb_neq _ _) Nc).
  - cbn [list_for_each_del]. rewrite (proj2 (ptr_eqb_neq _ _) Nc).
    unfold lbind at 1.
    rewrite list_del_eq, (list_del_checks_member [] c l D).
    set (h1 := Heap _ _).
    assert (En1 : node_next h1 c = c) by apply upd_same.
    assert (Ep1 : node_prev h1 c = c) by apply upd_same.
    destruct (list_for_each_del_stuck Nc N k h1 En1 Ep1) as (h' & E).
    exists h'. unfold lbind at 1. unfold get_node_next at 1. rewrite En1.
    unfold lbind. now rewrite E.
Qed.

(** *** The properties on a list of one head and one node *)

(** Every node initialised, and the list of [Head 0 0] with [Thread 1]
    as its only member. *)
Local Abbreviation lone := (Heap (fun x => x) (fun x => x)).
Local Abbreviation pair :=
  (Heap (upd (upd (fun x => x) (Thread 1) (Head 0 0)) (Head 0 0) (Thread 1))
        (upd (upd (fun x => x) (Thread 1) (Head 0 0)) (Head 0 0) (Thread 1))).

Lemma lone_dlist : dlist lone (Head 0 0) [].
Proof.
  unfold dlist. split; [|split; [|split]]; try reflexivity.
  - repeat constructor. intros [].
  - intros [E|[]]. discriminate.
Qed.

Lemma pair_dlist : dlist pair (Head 0 0) [Thread 1].
Proof.
  unfold dlist. split; [|split; [|split]].
  - split; reflexivity.
  - split; reflexivity.
  - repeat constructor; [intros [E|[]]; discriminate | intros []].
  - intros [E|[E|[]]]; discriminate.
Qed.

Lemma fresh_thread : ~ In (Thread 1) [Head 0 0].
Proof. intros [E|[]]. discriminate. Qed.

Lemma list_empty_on_dlist_witness :
  list_empty (Head 0 0) pair = Some (false, pair).
Proof. apply (list_empty_on_dlist pair_dlist). Defined.

Lemma list_add_pushes_front_witness :
  exists h',
    list_add (Head 0 0) (Thread 1) lone = Some (tt, h') /\
    dlist h' (Head 0 0) [Thread 1].
Proof.
  apply (list_add_pushes_front lone_dlist fresh_thread). discriminate.
Defined.

Lemma list_add_tail_appends_witness :
  exists h',
    list_add_tail (Head 0 0) (Thread 1) lone = Some (tt, h') /\
    dlist h' (Head 0 0) [Thread 1].
Proof.
  apply (list_add_tail_appends lone_dlist fresh_thread). discriminate.
Defined.

Lemma list_del_unlinks_witness :
  exists h',
    list_del (Thread 1) pair = Some (tt, h') /\
    dlist h' (Head 0 0) [] /\
    node_next h' (Thread 1) = Thread 1 /\ node_prev h' (Thread 1) = Thread 1.
Proof. apply (@list_del_unlinks pair (Head 0 0) (Thread 1) [] [] pair_dlist). Defined.

Lemma list_add_del_round_trip_witness :
  (exists h1 h2,
     list_add (Head 0 0) (Thread 1) lone = Some (tt, h1) /\
     list_del (Thread 1) h1 = Some (tt, h2) /\
     (forall x, x <> Thread 1 ->
        node_next h2 x = node_next lone x /\
        node_prev h2 x = node_prev lone x) /\
     node_next h2 (Thread 1) = Thread 1 /\
     node_prev h2 (Thread 1) = Thread 1 /\
     dlist h2 (Head 0 0) []) /\
  (exists h1 h2,
     list_add_tail (Head 0 0) (Thread 1) lone = Some (tt, h1) /\
     list_del (Thread 1) h1 = Some (tt, h2) /\
     (forall x, x <> Thread 1 ->
        node_next h2 x = node_next lone x /\
        node_prev h2 x = node_prev lone x) /\
     node_next h2 (Thread 1) = Thread 1 /\
     node_prev h2 (Thread 1) = Thread 1 /\
     dlist h2 (Head 0 0) []).
Proof.
  apply (list_add_del_round_trip lone_dlist fresh_thread). discriminate.
Defined.

Lemma list_del_twice_witness :
  exists h1,
    list_del (Thread 1) pair = Some (tt, h1) /\
    node_next h1 (Thread 1) = Thread 1 /\ node_prev h1 (Thread 1) = Thread 1 /\
    exists h2,
      list_del (Thread 1) h1 = Some (tt, h2) /\
      forall x, node_next h2 x = node_next h1 x /\
                node_prev h2 x = node_prev h1 x.
Proof.
  eexists. split; [reflexivity|].
  apply (@list_del_twice pair _ (Thread 1)); [discriminate | reflexivity].
Defined.

Lemma list_for_each_visits_members_witness :
  list_for_each 1 (Head 0 0) (Thread 1) pair = Some [Thread 1].
Proof. apply (list_for_each_visits_members pair_dlist). Defined.

Lemma list_for_each_safe_pops_all_witness :
  exists h',
    list_pop_all 1 (Head 0 0) pair = Some (Some [Thread 1], h') /\
    dlist h' (Head 0 0) [] /\
    (forall x, In x [Thread 1] -> node_next h' x = x /\ node_prev h' x = x) /\
    (forall x, ~ In x [Head 0 0; Thread 1] ->
       node_next h' x = node_next pair x /\ node_prev h' x = node_prev pair x).
Proof. apply (list_for_each_safe_pops_all pair_dlist). Defined.

Lemma list_for_each_del_never_ends_witness :
  exists h',
    (c' <- get_node_next (Head 0 0) ;; list_for_each_del 5 (Head 0 0) c') pair
      = Some (None, h').
Proof. apply (list_for_each_del_never_ends 5 pair_dlist). Defined.

End ListNodeSpec.

(* ================================================================== *)
(** ** Properties of alignment and ceiling division *)
(* ================================================================== *)

Module KernelSpec.

Import Kernel.

Local Open Scope Z_scope.

Lemma uint64_small z : 0 <= z < 2 ^ 64 -> uint64 z = z.
Proof. intros H. now apply Z.mod_small. Qed.

Lemma pow2_le k : 0 <= k < 64 -> 0 < 2 ^ k <= 2 ^ 63.
Proof.
  intros H. split; [apply Z.pow_pos_nonneg; lia|].
  apply Z.pow_le_mono_r; lia.
Qed.

Lemma pow2_lt k : 0 <= k < 64 -> 0 < 2 ^ k < 2 ^ 64.
Proof.
  intros H. split; [apply Z.pow_pos_nonneg; lia|].
  apply Z.pow_lt_mono_r; lia.
Qed.

Lemma mask_ones k : 0 <= k < 64 -> uint64 (2 ^ k - 1) = Z.ones k.
Proof.
  intros H. rewrite Z.ones_equiv, Z.sub_1_r. apply uint64_small.
  pose proof (pow2_le H). change (2 ^ 63) with 9223372036854775808 in *.
  change (2 ^ 64) with 18446744073709551616. lia.
Qed.

Lemma round_down_eq x k :
  0 <= x < 2 ^ 64 -> 0 <= k < 64 ->
  round_down x (2 ^ k) = 2 ^ k * (x / 2 ^ k).
Proof.
  intros Hx Hk. unfold round_down. rewrite (mask_ones Hk).
  unfold uint64. rewrite <- Z.land_ones by lia.
  rewrite (Z.land_comm (Z.lnot _)), Z.land_assoc, Z.land_ones by lia.
  fold (uint64 x). rewrite (uint64_small Hx).
  rewrite <- Z.ldiff_land.
  rewrite Z.ldiff_ones_r by lia.
  rewrite Z.shiftl_mul_pow2, Z.shiftr_div_pow2 by lia. lia.
Qed.

Lemma lor_ones y k : 0 <= y -> 0 <= k ->
  Z.lor y (Z.ones k) = 2 ^ k * (y / 2 ^ k) + (2 ^ k - 1).
Proof.
  intros Hy Hk.
  pose proof (Z.add_lor_land y (Z.ones k)) as E.
  rewrite Z.land_ones in E by lia.
  rewrite Z.ones_equiv, <- Z.sub_1_r in *.
  pose proof (Z.div_mod y (2 ^ k)) as D.
  assert (0 < 2 ^ k) by (apply Z.pow_pos_nonneg; lia). lia.
Qed.

Lemma uint64_range z : 0 <= uint64 z < 2 ^ 64.
Proof. apply Z.mod_pos_bound. reflexivity. Qed.

(** [round_up] before its last conversion to [uint64_t]. *)
Lemma round_up_eq x k :
  0 <= k < 64 ->
  round_up x (2 ^ k) =
  uint64 (2 ^ k * (uint64 (x - 1) / 2 ^ k + 1)).
Proof.
  intros Hk. unfold round_up. rewrite (mask_ones Hk).
  pose proof (uint64_range (x - 1)).
  rewrite lor_ones by lia. f_equal. lia.
Qed.

Lemma mod_mul_l a b : 0 < a -> (a * b) mod a = 0.
Proof. intros H. rewrite Z.mul_comm. apply Z.mod_mul. lia. Qed.

Lemma pow2_split k : 0 <= k < 64 -> 2 ^ 64 = 2 ^ k * 2 ^ (64 - k).
Proof. intros H. rewrite <- Z.pow_add_r by lia. f_equal. lia. Qed.

Lemma round_up_pos x k :
  0 < x < 2 ^ 64 -> 0 <= k < 64 ->
  exists q, round_up x (2 ^ k) = uint64 (2 ^ k * q) /\
            x <= 2 ^ k * q < x + 2 ^ k.
Proof.
  intros Hx Hk. exists ((x - 1) / 2 ^ k + 1).
  rewrite (round_up_eq _ Hk), (uint64_small (z := x - 1)) by lia.
  split; [reflexivity|].
  pose proof (pow2_le Hk) as [P _].
  pose proof (Z.div_mod (x - 1) (2 ^ k) ltac:(lia)).
  pose proof (Z.mod_pos_bound (x - 1) (2 ^ k) P). lia.
Qed.

(** X23.  For [n] a power of two, [round_down(x, n)] is the greatest
    multiple of [n] that is at most [x]: it is [n]-aligned, at most [x]
    and less than [n] below it. *)
Theorem round_down_spec x k :
  0 <= x < 2 ^ 64 -> 0 <= k < 64 ->
  round_down x (2 ^ k) <= x < round_down x (2 ^ k) + 2 ^ k /\
  round_down x (2 ^ k) mod 2 ^ k = 0 /\
  is_aligned (round_down x (2 ^ k)) (2 ^ k) = true.
Proof.
  intros Hx Hk. pose proof (pow2_le Hk) as [P _].
  assert (M : round_down x (2 ^ k) mod 2 ^ k = 0).
  { rewrite (round_down_eq Hx Hk). now apply mod_mul_l. }
  split; [|split; [exact M|]].
  - rewrite (round_down_eq Hx Hk).
    pose proof (Z.div_mod x (2 ^ k) ltac:(lia)).
    pose proof (Z.mod_pos_bound x (2 ^ k) P). lia.
  - unfold is_aligned, __mask. rewrite (mask_ones Hk), Z.land_ones by lia.
    rewrite M. reflexivity.
Qed.

Lemma round_up_zero k : 0 <= k < 64 -> round_up 0 (2 ^ k) = 0.
Proof.
  intros Hk. pose proof (pow2_lt Hk) as [P _].
  rewrite (round_up_eq _ Hk).
  change (uint64 (0 - 1)) with (2 ^ 64 - 1).
  assert (E : (2 ^ 64 - 1) / 2 ^ k = 2 ^ (64 - k) - 1).
  { symmetry. apply Z.div_unique with (r := 2 ^ k - 1); [lia|].
    rewrite (pow2_split Hk). lia. }
  rewrite E.
  replace (2 ^ k * (2 ^ (64 - k) - 1 + 1)) with (2 ^ 64)
    by (rewrite (pow2_split Hk); lia).
  reflexivity.
Qed.

(** X24.  For [n] a power of two and [x] at most [2^64 - n],
    [round_up(x, n)] is the least multiple of [n] that is at least [x];
    zero is rounded up to zero. *)
Theorem round_up_spec x k :
  0 <= x -> 0 <= k < 64 -> x + 2 ^ k <= 2 ^ 64 ->
  x <= round_up x (2 ^ k) < x + 2 ^ k /\
  round_up x (2 ^ k) mod 2 ^ k = 0.
Proof.
  intros Hx Hk Hfit. pose proof (pow2_lt Hk) as [P _].
  destruct (Z.eq_dec x 0) as [->|Nx].
  - rewrite (round_up_zero Hk), Z.mod_0_l by lia. lia.
  - destruct (@round_up_pos x k ltac:(lia) Hk) as (q & E & B).
    rewrite E, uint64_small by lia. split; [exact B|]. now apply mod_mul_l.
Qed.

(** X25.  Above the last [n]-aligned 64-bit value [round_up] wraps
    around: the result is zero, which is below [x]. *)
Theorem round_up_wraps x k :
  0 <= k < 64 -> 2 ^ 64 - 2 ^ k < x < 2 ^ 64 ->
  round_up x (2 ^ k) = 0.
Proof.
  intros Hk Hx. pose proof (pow2_lt Hk) as [P P'].
  destruct (@round_up_pos x k ltac:(lia) Hk) as (q & E & B).
  rewrite E. rewrite (pow2_split Hk) in Hx.
  assert (q = 2 ^ (64 - k)) as -> by nia.
  rewrite <- (pow2_split Hk). reflexivity.
Qed.

Lemma is_aligned_mod x k :
  0 <= k < 64 -> is_aligned x (2 ^ k) = true <-> x mod 2 ^ k = 0.
Proof.
  intros Hk. unfold is_aligned, __mask.
  rewrite (mask_ones Hk), Z.land_ones by lia. apply Z.eqb_eq.
Qed.

(** X26.  For [n] a power of two, [is_aligned(x, n)] holds exactly
    when [n] divides [x], exactly when [round_down] leaves [x] as it
    is, and exactly when [round_up] does. *)
Theorem is_aligned_fixed_points x k :
  0 <= x < 2 ^ 64 -> 0 <= k < 64 ->
  (is_aligned x (2 ^ k) = true <-> x mod 2 ^ k = 0) /\
  (is_aligned x (2 ^ k) = true <-> round_down x (2 ^ k) = x) /\
  (is_aligned x (2 ^ k) = true <-> round_up x (2 ^ k) = x).
Proof.
  intros Hx Hk. pose proof (pow2_lt Hk) as [P P'].
  pose proof (Z.div_mod x (2 ^ k) ltac:(lia)) as D.
  pose proof (Z.mod_pos_bound x (2 ^ k) P) as B.
  rewrite (is_aligned_mod x Hk).
  split; [reflexivity|]. split.
  - rewrite (round_down_eq Hx Hk). lia.
  - destruct (Z.eq_dec x 0) as [->|Nx].
    + split; intros _; [|now apply Z.mod_0_l; lia].
      apply (round_up_zero Hk).
    + destruct (@round_up_pos x k ltac:(lia) Hk) as (q & E & Bq).
      rewrite E. split.
      * intros M. rewrite M in D.
        assert (q = x / 2 ^ k) as -> by nia.
        rewrite uint64_small; lia.
      * intros Eq.
        assert (2 ^ k * q < 2 ^ 64 \/ 2 ^ 64 <= 2 ^ k * q) as [S|S] by lia.
        -- rewrite uint64_small in Eq by lia. rewrite <- Eq.
           now apply mod_mul_l.
        -- exfalso. rewrite (pow2_split Hk) in S, Hx.
           assert (q = 2 ^ (64 - k)) as -> by nia.
           rewrite <- (pow2_split Hk) in Eq.
           change (uint64 (2 ^ 64)) with 0 in Eq. lia.
Qed.

Lemma ceil_div_pos a b :
  0 < a < 2 ^ 64 -> 0 < b ->
  ceil_div a b = Some ((a - 1) / b + 1) /\
  b * ((a - 1) / b) < a <= b * ((a - 1) / b + 1).
Proof.
  intros Ha Hb. unfold ceil_div.
  destruct (Z.eqb_spec a 0) as [->|Na]; [lia|].
  destruct (Z.eqb_spec b 0) as [->|_]; [lia|].
  rewrite (uint64_small (z := a - 1)) by lia.
  pose proof (Z.div_mod (a - 1) b ltac:(lia)) as D.
  pose proof (Z.mod_pos_bound (a - 1) b ltac:(lia)) as B.
  assert (Q : 0 <= (a - 1) / b <= a - 1).
  { split; [apply Z.div_pos; lia|]. apply Z.div_le_upper_bound; nia. }
  rewrite uint64_small by lia. split; [reflexivity | lia].
Qed.

(** X27.  For a divisor that is not zero, [ceil_div(a, b)] is the
    least [q] with [a <= b * q]: the quotient rounded up, with no
    overflow for any 64-bit [a]. *)
Theorem ceil_div_spec a b :
  0 <= a < 2 ^ 64 -> 0 < b ->
  exists q,
    ceil_div a b = Some q /\
    b * (q - 1) < a <= b * q /\
    (forall q', a <= b * q' -> q <= q').
Proof.
  intros Ha Hb.
  destruct (Z.eq_dec a 0) as [->|Na].
  - exists 0. split; [reflexivity|]. split; [lia|]. intros q' H. nia.
  - destruct (@ceil_div_pos a b ltac:(lia) Hb) as (E & B).
    eexists. split; [exact E|]. split; [lia|]. intros q' H. nia.
Qed.

Lemma round_down_spec_witness :
  round_down 5000 (2 ^ 12) <= 5000 < round_down 5000 (2 ^ 12) + 2 ^ 12 /\
  round_down 5000 (2 ^ 12) mod 2 ^ 12 = 0 /\
  is_aligned (round_down 5000 (2 ^ 12)) (2 ^ 12) = true.
Proof. apply (@round_down_spec 5000 12); lia. Defined.

Lemma round_up_spec_witness :
  5000 <= round_up 5000 (2 ^ 12) < 5000 + 2 ^ 12 /\
  round_up 5000 (2 ^ 12) mod 2 ^ 12 = 0.
Proof. apply (@round_up_spec 5000 12); lia. Defined.

Lemma round_up_wraps_witness : round_up (2 ^ 64 - 1) (2 ^ 12) = 0.
Proof. apply (@round_up_wraps (2 ^ 64 - 1) 12); lia. Defined.

Lemma is_aligned_fixed_points_witness :
  (is_aligned 8192 (2 ^ 12) = true <-> 8192 mod 2 ^ 12 = 0) /\
  (is_aligned 8192 (2 ^ 12) = true <-> round_down 8192 (2 ^ 12) = 8192) /\
  (is_aligned 8192 (2 ^ 12) = true <-> round_up 8192 (2 ^ 12) = 8192).
Proof. apply (@is_aligned_fixed_points 8192 12); lia. Defined.

Lemma ceil_div_spec_witness :
  exists q,
    ceil_div 5000 512 = Some q /\
    512 * (q - 1) < 5000 <= 512 * q /\
    (forall q', 5000 <= 512 * q' -> q <= q').
Proof. apply (@ceil_div_spec 5000 512); lia. Defined.

End KernelSpec.

(* ================================================================== *)
(** ** Properties of the checksums *)
(* ================================================================== *)

Module ChecksumSpec.

Import Kernel Checksum.

Local Open Scope Z_scope.

Lemma load8_range mem a : 0 <= load8 mem a < 256.
Proof. apply Z.mod_pos_bound. reflexivity. Qed.

Lemma byte_sum_range mem len : forall a,
  0 <= byte_sum mem len a <= 255 * Z.of_nat len.
Proof.
  induction len as [|k IH]; intros a; cbn [byte_sum]; [lia|].
  pose proof (load8_range mem a). pose proof (IH (a + 1)). lia.
Qed.

Lemma mpf_checksum_loop_sum mem len : forall buf s,
  mpf_checksum_loop mem len buf (uint8 s) = uint8 (s + byte_sum mem len buf).
Proof.
  induction len as [|k IH]; intros buf s; cbn [mpf_checksum_loop byte_sum].
  - now rewrite Z.add_0_r.
  - rewrite IH. unfold uint8. rewrite <- Z.add_assoc.
    now rewrite Z.add_mod_idemp_l by lia.
Qed.

Lemma e820_checksum_loop_sum mem len : forall p sum,
  0 <= sum -> sum + 255 * Z.of_nat len < 2 ^ 32 ->
  e820_checksum_loop mem len p sum = sum + byte_sum mem len p.
Proof.
  induction len as [|k IH]; intros p sum H0 H;
    cbn [e820_checksum_loop byte_sum]; [lia|].
  pose proof (load8_range mem p).
  unfold uint32. rewrite Z.mod_small by lia. rewrite IH by lia. lia.
Qed.

Lemma byte_sum_ext mem mem' len : forall a,
  (forall i, 0 <= i < Z.of_nat len -> mem' (a + i) = mem (a + i)) ->
  byte_sum mem' len a = byte_sum mem len a.
Proof.
  induction len as [|k IH]; intros a E; cbn [byte_sum]; [reflexivity|].
  unfold load8. rewrite <- (Z.add_0_r a) at 1 3. rewrite E by lia.
  rewrite Z.add_0_r. f_equal. apply IH. intros i Hi.
  replace (a + 1 + i) with (a + (1 + i)) by lia. apply E. lia.
Qed.

Lemma byte_sum_change mem mem' len : forall a i,
  0 <= i < Z.of_nat len ->
  (forall x, x <> a + i -> mem' x = mem x) ->
  byte_sum mem' len a =
  byte_sum mem len a + load8 mem' (a + i) - load8 mem (a + i).
Proof.
  induction len as [|k IH]; intros a i Hi E; [simpl in Hi; lia|].
  cbn [byte_sum]. destruct (Z.eq_dec i 0) as [->|Ni].
  - rewrite Z.add_0_r.
    rewrite (@byte_sum_ext mem mem' k (a + 1)); [lia|].
    intros j Hj. apply E. lia.
  - unfold load8 at 1. rewrite (E a) by lia. fold (load8 mem a).
    rewrite (IH (a + 1) (i - 1)); [|lia|].
    + replace (a + 1 + (i - 1)) with (a + i) by lia. lia.
    + intros x Hx. apply E. lia.
Qed.

(** X28.  [mpf_checksum] tells any change of one byte: two buffers
    that differ in exactly one of the bytes summed have different
    checksums, so a structure whose bytes add up to zero no longer does
    once a byte of it is altered. *)
Theorem mpf_checksum_detects mem mem' mp len i :
  0 <= i < Z.of_nat len ->
  (forall x, x <> mp + i -> mem' x = mem x) ->
  load8 mem' (mp + i) <> load8 mem (mp + i) ->
  mpf_checksum mem' mp len <> mpf_checksum mem mp len.
Proof.
  intros Hi E N. unfold mpf_checksum. change 0 with (uint8 0).
  rewrite !mpf_checksum_loop_sum, !Z.add_0_l.
  rewrite (@byte_sum_change mem mem' len mp i Hi E).
  pose proof (load8_range mem (mp + i)). pose proof (load8_range mem' (mp + i)).
  set (S0 := byte_sum mem len mp). unfold uint8. intros Eq.
  assert (D : (load8 mem' (mp + i) - load8 mem (mp + i)) mod 2 ^ 8 = 0).
  { replace (load8 mem' (mp + i) - load8 mem (mp + i))
      with ((S0 + load8 mem' (mp + i) - load8 mem (mp + i)) - S0) by lia.
    rewrite Zminus_mod, Eq, Z.sub_diag. reflexivity. }
  apply Z.mod_divide in D; [|lia]. destruct D as [m D].
  change (2 ^ 8) with 256 in D. lia.
Qed.

(** X29.  Up to [2^24] bytes [e820_checksum] does not wrap around:
    it returns the sum of the bytes as a number. *)
Theorem e820_checksum_exact mem base len :
  Z.of_nat len <= 2 ^ 24 ->
  e820_checksum mem base len = byte_sum mem len base.
Proof.
  intros H. unfold e820_checksum.
  rewrite e820_checksum_loop_sum; [lia | lia |].
  change (2 ^ 24) with 16777216 in H. change (2 ^ 32) with 4294967296. lia.
Qed.

Lemma mpf_checksum_detects_witness :
  mpf_checksum (fun a => if a =? 3 then 1 else 0) 0 8 <>
  mpf_checksum (fun _ => 0) 0 8.
Proof.
  apply (@mpf_checksum_detects (fun _ => 0) (fun a => if a =? 3 then 1 else 0)
           0 8 3).
  - simpl. lia.
  - intros x Hx. destruct (Z.eqb_spec x 3); [lia | reflexivity].
  - discriminate.
Defined.

Lemma e820_checksum_exact_witness :
  e820_checksum (fun a => a) 10 4 = byte_sum (fun a => a) 4 10.
Proof. apply e820_checksum_exact. simpl. lia. Defined.

End ChecksumSpec.
